(** * Video stream recorder: the ingestion core, embedded and verified

    The development follows the Go sources:
    - [database.go]  (the bbolt-backed segment store and the retention worker),
    - [fifocache.go] (the FIFO de-duplication cache),
    - [server.go]    (the live manifest handler),
    - [processor.go] (the HLS fetch loop of the current binary) and the older
      monolithic [main.go] whose [fetcher] is the same loop written inline.

    Go's [int], [int64] and [uint64] are 64-bit machine integers: they are
    modelled as [Z] with the wrap-around written out.  A [float64] is carried
    as its IEEE-754 bit pattern.  The bbolt bucket is an ordered key/value
    table: it is modelled as an association list kept sorted by
    [bytes.Compare] on the keys, together with the bucket's sequence counter. *)

From Stdlib Require Import ZArith List Lia Bool String Ascii Sorted.
From stdpp Require Import base gmap sets list strings pretty.
From Equations Require Import Equations.

Local Open Scope Z_scope.

(** ** Machine integers *)

Module GoInt.

Definition two64 : Z := 2 ^ 64.
Definition two63 : Z := 2 ^ 63.

(** Conversion to [uint64]: reduction modulo [2^64]. *)
Definition uint64 (v : Z) : Z := v mod two64.

(** The value a signed 64-bit computation leaves behind. *)
Definition int64 (v : Z) : Z := (v + two63) mod two64 - two63.

Definition in_int64 (v : Z) : Prop := - two63 <= v < two63.

Definition in_int64b (v : Z) : bool := (- two63 <=? v) && (v <? two63).

End GoInt.

(** ** Byte strings: [itob] and [bytes.Compare] *)

Module Bytes.
Import GoInt.

(** [byte(x)] keeps the low eight bits. *)
Definition byte (x : Z) : Z := Z.land x 255.

(** [binary.BigEndian.PutUint64(b, v)]. *)
Definition PutUint64 (v : Z) : list Z :=
  [ byte (Z.shiftr v 56); byte (Z.shiftr v 48); byte (Z.shiftr v 40);
    byte (Z.shiftr v 32); byte (Z.shiftr v 24); byte (Z.shiftr v 16);
    byte (Z.shiftr v 8);  byte v ].

(** [func itob(v int) []byte]. *)
Definition itob (v : Z) : list Z := PutUint64 (uint64 v).

(** [bytes.Compare]: lexicographic order on byte strings. *)
Fixpoint Compare (a b : list Z) : comparison :=
  match a, b with
  | [], [] => Eq
  | [], _ :: _ => Lt
  | _ :: _, [] => Gt
  | x :: a', y :: b' =>
      match x ?= y with
      | Eq => Compare a' b'
      | c => c
      end
  end.

Definition lt_b (a b : list Z) : bool :=
  match Compare a b with Lt => true | _ => false end.

Definition eq_b (a b : list Z) : bool :=
  match Compare a b with Eq => true | _ => false end.

(** The number a big-endian byte string denotes. *)
Fixpoint be_value (l : list Z) : Z :=
  match l with
  | [] => 0
  | b :: l' => b * 256 ^ Z.of_nat (length l') + be_value l'
  end.

Definition is_byte (b : Z) : Prop := 0 <= b < 256.

End Bytes.

(** ** The bbolt bucket *)

Module Bolt.
Import GoInt.

Section Bucket.
Context {V : Type}.

(** One bucket: the key/value pairs in ascending key order and the
    bucket's [sequence] field. *)
Record Bucket : Type := mkBucket {
  entries : list (list Z * V);
  sequence : Z
}.

Definition empty : Bucket := {| entries := []; sequence := 0 |}.

(** [Bucket.NextSequence]: increments the [uint64] counter and returns it. *)
Definition NextSequence (b : Bucket) : Z * Bucket :=
  let s := uint64 (sequence b + 1) in
  (s, {| entries := entries b; sequence := s |}).

(** Insertion in key order; an equal key has its value overwritten. *)
Fixpoint put_entries (k : list Z) (v : V) (es : list (list Z * V))
  : list (list Z * V) :=
  match es with
  | [] => [(k, v)]
  | (k', v') :: es' =>
      match Bytes.Compare k k' with
      | Lt => (k, v) :: (k', v') :: es'
      | Eq => (k, v) :: es'
      | Gt => (k', v') :: put_entries k v es'
      end
  end.

(** [Bucket.Put]. *)
Definition Put (k : list Z) (v : V) (b : Bucket) : Bucket :=
  {| entries := put_entries k v (entries b); sequence := sequence b |}.

Fixpoint delete_entries (k : list Z) (es : list (list Z * V))
  : list (list Z * V) :=
  match es with
  | [] => []
  | (k', v') :: es' =>
      if Bytes.eq_b k k' then es' else (k', v') :: delete_entries k es'
  end.

(** [Bucket.Delete]. *)
Definition Delete (k : list Z) (b : Bucket) : Bucket :=
  {| entries := delete_entries k (entries b); sequence := sequence b |}.

(** [Bucket.Get]. *)
Fixpoint get_entries (k : list Z) (es : list (list Z * V)) : option V :=
  match es with
  | [] => None
  | (k', v') :: es' =>
      if Bytes.eq_b k k' then Some v' else get_entries k es'
  end.

Definition Get (k : list Z) (b : Bucket) : option V :=
  get_entries k (entries b).

(** [Cursor.Seek(k)] followed by [Cursor.Next] until exhaustion visits
    the entries whose key is not below [k], in ascending order. *)
Fixpoint seek_entries (k : list Z) (es : list (list Z * V))
  : list (list Z * V) :=
  match es with
  | [] => []
  | (k', v') :: es' =>
      if Bytes.lt_b k' k then seek_entries k es' else (k', v') :: es'
  end.

(** [Cursor.First] / [Cursor.Next]: all entries, ascending. *)
Definition scan_forward (b : Bucket) : list (list Z * V) := entries b.

(** [Cursor.Last] / [Cursor.Prev]: all entries, descending. *)
Definition scan_backward (b : Bucket) : list (list Z * V) :=
  rev (entries b).

Definition keys (b : Bucket) : list (list Z) := map fst (entries b).

Definition KeyN (b : Bucket) : nat := length (entries b).

(** Keys strictly ascending under [bytes.Compare]. *)
Fixpoint sorted_keys (ks : list (list Z)) : Prop :=
  match ks with
  | [] => True
  | k :: ks' =>
      match ks' with
      | [] => True
      | k' :: _ => Bytes.Compare k k' = Lt
      end /\ sorted_keys ks'
  end.

Definition well_formed (b : Bucket) : Prop := sorted_keys (keys b).

End Bucket.

Arguments Bucket : clear implicits.

End Bolt.

(** ** [strconv.Atoi] *)

Module Strconv.
Import GoInt.

Definition digit_of (c : ascii) : option Z :=
  let n := Z.of_nat (nat_of_ascii c) in
  if (48 <=? n) && (n <=? 57) then Some (n - 48) else None.

(** Decimal digits, most significant first; [None] on a foreign byte. *)
Fixpoint digits (cs : list ascii) (acc : Z) : option Z :=
  match cs with
  | [] => Some acc
  | c :: cs' =>
      match digit_of c with
      | Some d => digits cs' (acc * 10 + d)
      | None => None
      end
  end.

Definition unsigned_digits (cs : list ascii) : option Z :=
  match cs with
  | [] => None
  | _ :: _ => digits cs 0
  end.

(** [strconv.Atoi]: an optional sign, at least one decimal digit, and a
    value that fits [int]; anything else is an error. *)
Definition Atoi (s : string) : option Z :=
  let signed :=
    match list_ascii_of_string s with
    | [] => None
    | c :: cs =>
        if Ascii.eqb c "-"%char then Z.opp <$> unsigned_digits cs
        else if Ascii.eqb c "+"%char then unsigned_digits cs
        else unsigned_digits (c :: cs)
    end in
  match signed with
  | Some n => if in_int64b n then Some n else None
  | None => None
  end.

End Strconv.

(** ** [unicode/utf8], as [encoding/json] uses it on strings *)

Module Utf8.

Definition byte_of (c : ascii) : Z := Z.of_N (N_of_ascii c).

Definition bytes (s : string) : list Z :=
  map byte_of (list_ascii_of_string s).

Definition between (lo hi b : Z) : bool := (lo <=? b) && (b <=? hi).

(** The table [first] with its [acceptRanges]: for a lead byte, the
    length of the sequence it opens and the range its second byte must
    lie in; [None] for a byte that opens no sequence. *)
Definition lead (b : Z) : option (nat * (Z * Z)) :=
  if between 194 223 b then Some (2%nat, (128, 191))
  else if b =? 224 then Some (3%nat, (160, 191))
  else if between 225 236 b then Some (3%nat, (128, 191))
  else if b =? 237 then Some (3%nat, (128, 159))
  else if between 238 239 b then Some (3%nat, (128, 191))
  else if b =? 240 then Some (4%nat, (144, 191))
  else if between 241 243 b then Some (4%nat, (128, 191))
  else if b =? 244 then Some (4%nat, (128, 143))
  else None.

(** [utf8.DecodeRuneInString] on bytes that open with a byte of 0x80 or
    more: the size of the well-formed sequence at their head, [None]
    where it reports [(RuneError, 1)]. *)
Definition sequence_size (bs : list Z) : option nat :=
  match bs with
  | b0 :: b1 :: rest =>
      match lead b0 with
      | Some (n, (lo, hi)) =>
          if between lo hi b1
             && (n - 2 <=? length rest)%nat
             && forallb (between 128 191) (take (n - 2) rest)
          then Some n else None
      | None => None
      end
  | _ => None
  end.

(** U+FFFD as it is encoded: EF BF BD. *)
Definition RuneError : string :=
  String "239" (String "191" (String "189" EmptyString)).

(** What a string reads back as after [json.Marshal] and
    [json.Unmarshal]: the encoder writes every byte that belongs to no
    well-formed sequence as the escape of U+FFFD, and everything else so
    that it decodes to itself.  [skip] counts the bytes still to copy of
    a sequence already checked. *)
Fixpoint json_string (skip : nat) (s : string) : string :=
  match s with
  | EmptyString => EmptyString
  | String c rest =>
      match skip with
      | S k => String c (json_string k rest)
      | O =>
          if byte_of c <? 128 then String c (json_string 0 rest)
          else
            match sequence_size (bytes s) with
            | Some n => String c (json_string (n - 1) rest)
            | None => RuneError +:+ json_string 0 rest
            end
      end
  end.

(** [utf8.ValidString], with the same counter. *)
Fixpoint ValidString_from (skip : nat) (s : string) : bool :=
  match s with
  | EmptyString => true
  | String c rest =>
      match skip with
      | S k => ValidString_from k rest
      | O =>
          if byte_of c <? 128 then ValidString_from 0 rest
          else
            match sequence_size (bytes s) with
            | Some n => ValidString_from (n - 1) rest
            | None => false
            end
      end
  end.

Definition ValidString (s : string) : bool := ValidString_from 0 s.

(** A string of bytes below 0x80. *)
Definition ascii_only (s : string) : Prop :=
  Forall (fun c => byte_of c < 128) (list_ascii_of_string s).

End Utf8.

(** ** The segment store ([database.go]) *)

Module DB.
Import GoInt.

(** [type DatabaseItem struct { ID uint64; Name string; Len float64; T int64 }].
    [Len] holds the bit pattern of the [float64]. *)
Record DatabaseItem : Type := mkItem {
  ID : Z;
  Name : string;
  Len : Z;
  T : Z
}.

Definition set_ID (item : DatabaseItem) (id : Z) : DatabaseItem :=
  {| ID := id; Name := Name item; Len := Len item; T := T item |}.

(** A [float64] is finite unless its eleven exponent bits are all ones. *)
Definition float_is_finite (bits : Z) : bool :=
  negb (Z.land (Z.shiftr bits 52) 2047 =? 2047).

(** What a bucket value holds: a JSON text, named by the record it
    decodes to, or the empty value left by a failed [json.Marshal] (whose
    error [database_store] drops). *)
Inductive Encoded : Type :=
| EncEmpty
| EncJSON (item : DatabaseItem).

(** The record the JSON text of [item] decodes to: the two integers and
    the finite float come back exactly, the name with every byte outside
    a well-formed UTF-8 sequence replaced by U+FFFD. *)
Definition json_text (item : DatabaseItem) : DatabaseItem :=
  {| ID := ID item; Name := Utf8.json_string 0 (Name item);
     Len := Len item; T := T item |}.

(** [json.Marshal] refuses NaN and the infinities. *)
Definition json_Marshal (item : DatabaseItem) : Encoded :=
  if float_is_finite (Len item) then EncJSON (json_text item) else EncEmpty.

Definition json_Unmarshal (v : Encoded) : option DatabaseItem :=
  match v with
  | EncJSON item => Some item
  | EncEmpty => None
  end.

Abbreviation Store := (Bolt.Bucket Encoded).

(** [database_store]: returns the item as the caller sees it afterwards
    (its [ID] assigned) and the bucket after the transaction. *)
Definition database_store (item : DatabaseItem) (db : Store)
  : DatabaseItem * Store :=
  let '(id, db1) := Bolt.NextSequence db in
  let item' := set_ID item id in
  let encoded := json_Marshal item' in
  (item', Bolt.Put (Bytes.itob (T item')) encoded db1).

(** The cursor loop of [database_last_5]: [es] are the entries still ahead
    of the cursor (newest first), [n] the counter, [tmp] the slice. *)
Fixpoint last_5_scan (es : list (list Z * Encoded)) (n : Z)
    (tmp : list DatabaseItem) : list DatabaseItem :=
  match es with
  | [] => tmp
  | (_, v) :: es' =>
      if n >=? 7 then tmp
      else
        match json_Unmarshal v with
        | None => last_5_scan es' (n + 1) tmp
        | Some item => last_5_scan es' (n + 1) (tmp ++ [item])
        end
  end.

(** [for i := len(tmp) - 1; i > 0; i-- { rt = append(rt, tmp[i]) }],
    entered with [i]. *)
Fixpoint last_5_copy (i : nat) (tmp rt : list DatabaseItem)
  : list DatabaseItem :=
  match i with
  | O => rt
  | S j =>
      match tmp !! i with
      | Some item => last_5_copy j tmp (rt ++ [item])
      | None => rt
      end
  end.

Definition database_last_5 (db : Store) : list DatabaseItem :=
  let tmp := last_5_scan (Bolt.scan_backward db) 0 [] in
  last_5_copy (length tmp - 1)%nat tmp [].

(** The cursor loop of [database_get], from the entry [Seek] found. *)
Fixpoint get_scan (end_ : list Z) (es : list (list Z * Encoded))
    (rt : list DatabaseItem) : list DatabaseItem :=
  match es with
  | [] => rt
  | (k, v) :: es' =>
      match Bytes.Compare k end_ with
      | Lt => rt
      | _ =>
          match json_Unmarshal v with
          | None => get_scan end_ es' rt
          | Some item => get_scan end_ es' (rt ++ [item])
          end
      end
  end.

(** The body of [database_get] once both arguments parsed. *)
Definition database_get_int (si li : Z) (db : Store) : list DatabaseItem :=
  let start := Bytes.itob (int64 (si * 1000000000)) in
  let end_ := Bytes.itob (int64 (si + int64 (int64 (li * 60) * 1000000000))) in
  get_scan end_ (Bolt.seek_entries start (Bolt.entries db)) [].

Definition database_get (s l : string) (db : Store) : list DatabaseItem :=
  match Strconv.Atoi s with
  | None => []
  | Some si =>
      match Strconv.Atoi l with
      | None => []
      | Some li => database_get_int si li db
      end
  end.

(** [current] of [database_worker]; [time.Nanosecond] is [1]. *)
Definition time_Nanosecond : Z := 1.

Definition worker_current (now flagTail : Z) : Z :=
  int64 (now - int64 (int64 (int64 (flagTail * 60) * 60) * time_Nanosecond)).

(** Outcome of one [database.Update] of the worker. *)
Record Sweep : Type := mkSweep {
  sweep_db : Store;            (* the bucket once the transaction ended *)
  sweep_removed : list string; (* blob names handed to [os.RemoveAll] *)
  sweep_err : bool             (* the transaction returned an error *)
}.

(** The cursor loop of the worker; [None] is [return err].  The cursor
    walks the pages as they stood when the transaction began, while
    [bucket.Delete] works on the transaction's own copy of the leaf, so
    the loop meets every entry [es] of the bucket in key order whatever
    has been deleted on the way. *)
Fixpoint worker_scan (cur : list Z) (es : list (list Z * Encoded))
    (db : Store) (removed : list string) : option Store * list string :=
  match es with
  | [] => (Some db, removed)
  | (k, v) :: es' =>
      match Bytes.Compare k cur with
      | Lt => (Some db, removed)
      | _ =>
          match json_Unmarshal v with
          | None => (None, removed)
          | Some item =>
              worker_scan cur es' (Bolt.Delete k db) (removed ++ [Name item])
          end
      end
  end.

(** One iteration of [database_worker] with [current] given: an error
    rolls the bucket back, the blobs already removed stay removed. *)
Definition database_sweep (current : Z) (db : Store) : Sweep :=
  match worker_scan (Bytes.itob current) (Bolt.scan_forward db) db [] with
  | (Some db', removed) =>
      {| sweep_db := db'; sweep_removed := removed; sweep_err := false |}
  | (None, removed) =>
      {| sweep_db := db; sweep_removed := removed; sweep_err := true |}
  end.

Definition database_worker_step (now flagTail : Z) (db : Store) : Sweep :=
  database_sweep (worker_current now flagTail) db.

(** The items a bucket holds, in key order. *)
Definition items (db : Store) : list DatabaseItem :=
  omap (fun e => json_Unmarshal (snd e)) (Bolt.entries db).

(** What every bucket built by this program satisfies: keys strictly
    ascending, the counter a [uint64], every record filed under the
    encoding of its own timestamp with an identifier already issued. *)
Definition store_inv (db : Store) : Prop :=
  Bolt.well_formed db /\
  0 <= Bolt.sequence db < two64 /\
  forall k item, (k, EncJSON item) ∈ Bolt.entries db ->
    k = Bytes.itob (T item) /\ 1 <= ID item <= Bolt.sequence db.

(** Appending a batch, one [database_store] each. *)
Definition store_all (l : list DatabaseItem) (db : Store) : Store :=
  fold_left (fun d item => snd (database_store item d)) l db.

End DB.

(** ** The FIFO de-duplication cache ([fifocache.go]) *)

Module Cache.

(** [cache] is the Go map used as a set, [list_] the [container/list]
    with its front first, [maxSize] the configured bound.  The mutex has
    no sequential content. *)
Record FIFOCache : Type := mkCache {
  cache : gset string;
  list_ : list string;
  maxSize : Z
}.

Definition NewFIFOCache (maxSize : Z) : FIFOCache :=
  {| cache := ∅; list_ := []; maxSize := maxSize |}.

Definition inspect {A} (a : A) : {b | a = b} := exist _ a eq_refl.

(** [for c.list.Len() > c.maxSize { item := c.list.Back(); delete(c.cache,
    item.Value.(string)); c.list.Remove(item) }].  On an empty list
    [Back] is nil and [item.Value] panics: that is [None]. *)
Equations? evict (c : FIFOCache) : option FIFOCache
  by wf (length (list_ c)) lt :=
  evict c with Z_gt_dec (Z.of_nat (length (list_ c))) (maxSize c) => {
    | right _ := Some c;
    | left _ with inspect (last (list_ c)) => {
        | exist _ None _ := None;
        | exist _ (Some item) _ :=
            evict {| cache := cache c ∖ {[item]};
                     list_ := removelast (list_ c);
                     maxSize := maxSize c |} } }.
Proof.
  simpl. destruct (list_ c) as [|a l _] using rev_ind; [discriminate|].
  rewrite removelast_last, length_app. simpl. lia.
Qed.

(** [func (c *FIFOCache) Set(url string) bool]. *)
Definition FIFOCache_Set (url : string) (c : FIFOCache)
  : option (FIFOCache * bool) :=
  if decide (url ∈ cache c) then Some (c, false)
  else
    c' ← evict {| cache := {[url]} ∪ cache c;
                  list_ := url :: list_ c;
                  maxSize := maxSize c |};
    Some (c', true).

(** [func (c *FIFOCache) Size() int]. *)
Definition FIFOCache_Size (c : FIFOCache) : Z := Z.of_nat (size (cache c)).

(** [func (c *FIFOCache) Clear()]. *)
Definition FIFOCache_Clear (c : FIFOCache) : FIFOCache :=
  {| cache := ∅; list_ := []; maxSize := maxSize c |}.

(** A call on the cache, and a sequence of calls run in order; the
    outputs are the results of the [Set] calls. *)
Inductive Call : Type :=
| CallSet (url : string)
| CallClear.

Fixpoint run (calls : list Call) (c : FIFOCache)
  : option (FIFOCache * list bool) :=
  match calls with
  | [] => Some (c, [])
  | CallSet url :: calls' =>
      '(c1, b) ← FIFOCache_Set url c;
      '(c2, bs) ← run calls' c1;
      Some (c2, b :: bs)
  | CallClear :: calls' => run calls' (FIFOCache_Clear c)
  end.

(** The representation invariant: the map and the list hold the same
    keys, the list without repetition. *)
Definition consistent (c : FIFOCache) : Prop :=
  NoDup (list_ c) /\ (forall x, x ∈ cache c <-> x ∈ list_ c).

(** A consistent cache of capacity [K] holding at most [K] keys. *)
Definition within (K : Z) (c : FIFOCache) : Prop :=
  consistent c /\ maxSize c = K /\ Z.of_nat (length (list_ c)) <= K.

Definition is_Set (call : Call) : bool :=
  match call with CallSet _ => true | CallClear => false end.

(** What a finished run leaves to look at: the list, front first, and
    the results of the [Set] calls. *)
Definition observe (r : option (FIFOCache * list bool))
  : option (list string * list bool) :=
  (fun p => (list_ (fst p), snd p)) <$> r.

(** Scenario 2 of the specification. *)
Definition scenario_calls : list Call :=
  [CallSet "a"; CallSet "b"; CallSet "c"; CallSet "a"; CallSet "c"].

End Cache.

(** ** The manifest handlers ([server.go]) *)

Module Server.
Import DB.

(** The lines the handlers emit, one constructor per [Sprintf]. *)
Inductive Line : Type :=
| EXTM3U
| EXT_X_PLAYLIST_TYPE_VOD
| EXT_X_TARGETDURATION (n : Z)
| EXT_X_VERSION (n : Z)
| EXT_X_MEDIA_SEQUENCE (id : Z)
| EXTINF (len : Z)
| SegmentURI (name : string)
| EXT_X_ENDLIST.

Inductive Response : Type :=
| Playlist (out : list Line)
| HttpError (code : Z) (message : string).

Definition StatusNotFound : Z := 404.

(** [for _, item := range items { out += "#EXTINF:..."; out += name }]. *)
Definition render_items (items : list DatabaseItem) : list Line :=
  flat_map (fun item => [EXTINF (Len item); SegmentURI (Name item)]) items.

(** [handleVODRequest]; [start] and [limit] are the route variables. *)
Definition handleVODRequest (start limit utc : string) (db : Store)
  : Response :=
  let '(start, limit) :=
    if String.eqb utc "" then (start, limit) else (utc, "300"%string) in
  let out := [EXTM3U; EXT_X_PLAYLIST_TYPE_VOD; EXT_X_TARGETDURATION 20;
              EXT_X_VERSION 4; EXT_X_MEDIA_SEQUENCE 0] in
  let items := database_get start limit db in
  Playlist (out ++ render_items items ++ [EXT_X_ENDLIST]).

(** [handleLiveStream]; on the live route no route variable is set.  The
    index [len(items)-1] is in range past the length test, so the branch
    for a failed lookup is never taken. *)
Definition handleLiveStream (utc : string) (db : Store) : Response :=
  if negb (String.eqb utc "") then handleVODRequest "" "" utc db
  else
    let out := [EXTM3U; EXT_X_TARGETDURATION 2; EXT_X_VERSION 4] in
    let items := database_last_5 db in
    if (Z.of_nat (length items) <=? 0) then
      HttpError StatusNotFound "No segments available"
    else
      match items !! (length items - 1)%nat with
      | None => HttpError 500 "index out of range"
      | Some last =>
          Playlist (out ++ [EXT_X_MEDIA_SEQUENCE (ID last)]
                        ++ render_items items)
      end.

(** Reading a playlist back: its sequence tag and its segment entries. *)
Definition media_sequence (r : Response) : option Z :=
  match r with
  | Playlist out =>
      head (omap (fun l => match l with
                           | EXT_X_MEDIA_SEQUENCE id => Some id
                           | _ => None
                           end) out)
  | HttpError _ _ => None
  end.

Fixpoint segment_entries (out : list Line) : list (Z * string) :=
  match out with
  | EXTINF len :: SegmentURI name :: out' =>
      (len, name) :: segment_entries out'
  | _ :: out' => segment_entries out'
  | [] => []
  end.

Definition playlist_entries (r : Response) : list (Z * string) :=
  match r with
  | Playlist out => segment_entries out
  | HttpError _ _ => []
  end.

End Server.

(** ** The fetch loop ([processor.go], and [fetcher] of the older [main.go]) *)

Module HLS.
Import DB Cache.

(** What [m3u8.Decode] hands back, reduced to the fields the loop reads. *)
Record MediaSegment : Type := mkSegment {
  URI : string;
  Duration : Z
}.

Record Variant : Type := mkVariant {
  VariantURI : string;
  Bandwidth : Z
}.

Inductive Decoded : Type :=
| DecodeError
| MASTER (Variants : list Variant)
| MEDIA (Segments : list (option MediaSegment)).

(** What [hc.Do] and [ioutil.ReadAll] can produce for one request. *)
Inductive HttpResult : Type :=
| TransportError
| HttpStatus (code : Z) (body : option (list Z)).

(** The outside world, asked at a logical time that advances with every
    question. *)
Record Env : Type := mkEnv {
  http_Do : nat -> string -> HttpResult;
  time_Now : nat -> Z;
  WriteFile_ok : nat -> string -> bool
}.

Inductive Event : Type :=
| EvFetch (url : string)
| EvSleep (seconds : Z).

(** The process state the loop works on. *)
Record Sys : Type := mkSys {
  sys_cache : FIFOCache;
  sys_db : Store;
  sys_files : gmap string (list Z);
  sys_tick : nat;
  sys_trace : list Event
}.

Definition initial (capacity : Z) : Sys :=
  {| sys_cache := NewFIFOCache capacity; sys_db := Bolt.empty;
     sys_files := ∅; sys_tick := O; sys_trace := [] |}.

(** State passing with failure ([None] is a Go panic). *)
Definition M (A : Type) : Type := Sys -> option (A * Sys).

Definition ret {A} (a : A) : M A := fun s => Some (a, s).

Definition bind {A B} (m : M A) (k : A -> M B) : M B :=
  fun s => match m s with
           | Some (a, s') => k a s'
           | None => None
           end.

Declare Scope hls_scope.
Delimit Scope hls_scope with hls.
Notation "x <-- m ; k" := (bind m (fun x => k))
  (at level 20, m at level 100, k at level 200) : hls_scope.
Local Open Scope hls_scope.

Definition tick (s : Sys) : Sys :=
  {| sys_cache := sys_cache s; sys_db := sys_db s; sys_files := sys_files s;
     sys_tick := S (sys_tick s); sys_trace := sys_trace s |}.

Definition emit (e : Event) : M unit := fun s =>
  Some (tt, {| sys_cache := sys_cache s; sys_db := sys_db s;
               sys_files := sys_files s; sys_tick := sys_tick s;
               sys_trace := sys_trace s ++ [e] |}).

(** A nil pointer is dereferenced: the goroutine panics. *)
Definition nil_dereference {A} : M A := fun _ => None.

(** The first use of a pointer that came with an error the caller
    dropped: [None] is the nil pointer. *)
Definition deref {A} (p : option A) : M A :=
  match p with
  | Some a => ret a
  | None => nil_dereference
  end.

(** The part of [net/url] the loop calls: [u.Parse(ref)], which hands
    back nil together with its error when [ref] does not parse,
    [u.String()], and the [RawQuery] field read and written. *)
Class UrlLib (URL : Type) : Type := {
  url_Parse : URL -> string -> option URL;
  url_String : URL -> string;
  url_RawQuery : URL -> string;
  url_set_RawQuery : URL -> string -> URL
}.

(** The state one request later. *)
Definition after_fetch (u : string) (s : Sys) : Sys :=
  {| sys_cache := sys_cache s; sys_db := sys_db s;
     sys_files := sys_files s; sys_tick := S (sys_tick s);
     sys_trace := sys_trace s ++ [EvFetch u] |}.

(** What [fetch] returns for a given outcome of the request. *)
Definition response_body (r : HttpResult) : option (list Z) :=
  match r with
  | TransportError => None
  | HttpStatus code body =>
      if negb (code / 100 =? 2) then None else body
  end.

Section Net.
(** [net/url] and [m3u8] are libraries: taken as given. *)
Context {URL : Type} {urls : UrlLib URL}.
Variable m3u8_Decode : list Z -> Decoded.
Variable env : Env.

(** [fetch]: nil on a transport error, a non-2xx status or a failed read. *)
Definition fetch (url : string) : M (option (list Z)) := fun s =>
  let r := response_body (http_Do env (sys_tick s) url) in
  (_ <-- emit (EvFetch url) ; ret r) (tick s).

Definition Now : M Z := fun s => Some (time_Now env (sys_tick s), tick s).

Definition Sleep (seconds : Z) : M unit := emit (EvSleep seconds).

(** [ioutil.WriteFile]: [true] when it returned no error. *)
Definition WriteFile (path : string) (data : list Z) : M bool := fun s =>
  let ok := WriteFile_ok env (sys_tick s) path in
  Some (ok,
        {| sys_cache := sys_cache s; sys_db := sys_db s;
           sys_files := if ok then <[path := data]> (sys_files s)
                        else sys_files s;
           sys_tick := S (sys_tick s); sys_trace := sys_trace s |}).

Definition cache_Set (url : string) : M bool := fun s =>
  '(c, b) ← FIFOCache_Set url (sys_cache s);
  Some (b, {| sys_cache := c; sys_db := sys_db s;
              sys_files := sys_files s; sys_tick := sys_tick s;
              sys_trace := sys_trace s |}).

Definition store (item : DatabaseItem) : M DatabaseItem := fun s =>
  let '(item', db) := database_store item (sys_db s) in
  Some (item', {| sys_cache := sys_cache s; sys_db := db;
                  sys_files := sys_files s; sys_tick := sys_tick s;
                  sys_trace := sys_trace s |}).

(** [fetchurl, _ := baseURL.Parse(segment.URI)] followed by
    [fetchurl.RawQuery = baseURL.RawQuery]. *)
Definition segment_fetchurl (baseURL : URL) (segment : MediaSegment)
  : option URL :=
  fetchurl ← url_Parse baseURL (URI segment);
  Some (url_set_RawQuery fetchurl (url_RawQuery baseURL)).

(** [fetchurl.String()], where there is a [fetchurl]. *)
Definition segment_url (baseURL : URL) (segment : MediaSegment)
  : option string :=
  url_String <$> segment_fetchurl baseURL segment.

Definition new_item (segment : MediaSegment) (currenttime : Z)
  : DatabaseItem :=
  {| ID := 0; Name := pretty currenttime +:+ ".ts";
     Len := Duration segment; T := currenttime |}.

(** One turn of the loop in [processSegments].  The error of [Parse] is
    dropped, so that a segment URI that does not parse ends in the write
    to the [RawQuery] of a nil [fetchurl].  The hand-off to the
    post-processor ([go p.postProcessor.ProcessSegment]) touches neither
    the cache nor the bucket and is left out. *)
Definition processSegment (baseURL : URL) (segment : option MediaSegment)
  : M unit :=
  match segment with
  | None => ret tt
  | Some segment =>
      fetchurl <-- deref (segment_fetchurl baseURL segment) ;
      let fetchurl := url_String fetchurl in
      admitted <-- cache_Set fetchurl ;
      if admitted : bool then
        currenttime <-- Now ;
        let item := new_item segment currenttime in
        segmentData <-- fetch fetchurl ;
        match segmentData with
        | Some data =>
            ok <-- WriteFile ("./files/" +:+ Name item) data ;
            if ok : bool then (_ <-- store item ; ret tt) else ret tt
        | None => ret tt
        end
      else ret tt
  end.

Fixpoint processSegments (Segments : list (option MediaSegment))
    (baseURL : URL) : M unit :=
  match Segments with
  | [] => ret tt
  | segment :: rest =>
      _ <-- processSegment baseURL segment ;
      processSegments rest baseURL
  end.

(** One turn of the segment loop inside [fetcher]: the record is stored
    before the download is attempted.  [Parse] is used as in
    [processSegments]. *)
Definition fetcher_segment (mainurl : URL) (segment : option MediaSegment)
  : M unit :=
  match segment with
  | None => ret tt
  | Some segment =>
      fetchurl <-- deref (segment_fetchurl mainurl segment) ;
      let fetchurl := url_String fetchurl in
      admitted <-- cache_Set fetchurl ;
      if admitted : bool then
        currenttime <-- Now ;
        let item := new_item segment currenttime in
        item' <-- store item ;
        b <-- fetch fetchurl ;
        match b with
        | Some data =>
            _ <-- WriteFile ("./files/" +:+ Name item') data ; ret tt
        | None => ret tt
        end
      else ret tt
  end.

Fixpoint fetcher_segments (Segments : list (option MediaSegment))
    (mainurl : URL) : M unit :=
  match Segments with
  | [] => ret tt
  | segment :: rest =>
      _ <-- fetcher_segment mainurl segment ;
      fetcher_segments rest mainurl
  end.

(** Where control goes after one pass over the loop body. *)
Inductive Next : Type :=
| GotoStartAt
| NextIteration.

(** The body of [fetchLoop] past its request, [b] being what [fetch]
    returned.  On a master playlist [mainurl, _ = mainurl.Parse(...)]
    drops the error, and the [mainurl.String()] of the log line that
    follows is the first use of the pointer. *)
Definition fetchLoop_decode (mainurl : URL) (b : option (list Z))
  : M (URL * Next) :=
  match b with
  | None => _ <-- Sleep 1 ; ret (mainurl, NextIteration)
  | Some b =>
      match m3u8_Decode b with
      | DecodeError => _ <-- Sleep 1 ; ret (mainurl, NextIteration)
      | MASTER Variants =>
          match Variants with
          | variant :: _ =>
              mainurl' <-- deref (url_Parse mainurl (VariantURI variant)) ;
              ret (mainurl', GotoStartAt)
          | [] => _ <-- Sleep 3 ; ret (mainurl, NextIteration)
          end
      | MEDIA Segments =>
          _ <-- processSegments Segments mainurl ;
          _ <-- Sleep 3 ; ret (mainurl, NextIteration)
      end
  end.

(** The body of [fetchLoop], from the label [start_at]. *)
Definition fetchLoop_body (mainurl : URL) : M (URL * Next) :=
  b <-- fetch (url_String mainurl) ;
  fetchLoop_decode mainurl b.

(** The body of [fetcher] past its request: a failed fetch is decoded as
    an empty buffer. *)
Definition fetcher_decode (mainurl : URL) (b : option (list Z))
  : M (URL * Next) :=
  match m3u8_Decode (default [] b) with
  | DecodeError => _ <-- Sleep 1 ; ret (mainurl, NextIteration)
  | MASTER Variants =>
      match Variants with
      | variant :: _ =>
          mainurl' <-- deref (url_Parse mainurl (VariantURI variant)) ;
          ret (mainurl', GotoStartAt)
      | [] => _ <-- Sleep 3 ; ret (mainurl, NextIteration)
      end
  | MEDIA Segments =>
      _ <-- fetcher_segments Segments mainurl ;
      _ <-- Sleep 3 ; ret (mainurl, NextIteration)
  end.

(** The body of [fetcher], from the label [start_at]. *)
Definition fetcher_body (mainurl : URL) : M (URL * Next) :=
  b <-- fetch (url_String mainurl) ;
  fetcher_decode mainurl b.

(** The first [n] passes over a loop body, [mainurl] being the URL that
    [url.Parse] made of the stream address before the loop.  Both loops
    run for the life of the process ([p.running] stays set, [fetcher] has
    no exit), so a run is described by its finite prefixes; a pass that
    panics ends the run. *)
Fixpoint passes (body : URL -> M (URL * Next)) (n : nat) (mainurl : URL)
  : M URL :=
  match n with
  | O => ret mainurl
  | S n' =>
      r <-- body mainurl ;
      passes body n' (fst r)
  end.

Definition fetchLoop (n : nat) (mainurl : URL) : M URL :=
  passes fetchLoop_body n mainurl.

Definition fetcher (n : nat) (mainurl : URL) : M URL :=
  passes fetcher_body n mainurl.

End Net.


(** A computation that only ever appends to the trace. *)
Definition appends {A} (m : M A) : Prop :=
  forall s a s', m s = Some (a, s') ->
    exists more, sys_trace s' = sys_trace s ++ more.

(** The entries of [Segments] that are not nil: [m3u8] hands the slice
    back at its full capacity, the segments of the playlist first. *)
Definition announced (Segments : list (option MediaSegment))
  : list MediaSegment :=
  omap id Segments.

(** The URLs requested so far, oldest first. *)
Definition fetched (s : Sys) : list string :=
  omap (fun e => match e with EvFetch u => Some u | EvSleep _ => None end)
       (sys_trace s).

End HLS.

(** ** Concrete inputs used by the examples *)

Module Scenario.
Import DB HLS.

(** The bit pattern of the [float64] 2.0. *)
Definition two_seconds : Z := 4611686018427387904.

Definition T0 : Z := 1700000000000000000.

(** The item the fetch loop builds for a two-second segment that
    arrived at [t]. *)
Definition arrival (t : Z) : DatabaseItem :=
  {| ID := 0; Name := pretty t +:+ ".ts"; Len := two_seconds; T := t |}.

Definition one_segment : Store := store_all [arrival T0] Bolt.empty.

Definition three_segments : Store :=
  store_all [arrival T0; arrival (T0 + 1000000000);
             arrival (T0 + 2000000000)] Bolt.empty.

(** A small store addressed in whole seconds. *)
Definition at_ten_seconds : Store :=
  store_all [arrival 10000000000] Bolt.empty.

(** A stand-in for [net/url] on absolute references: resolving replaces
    the location and drops the query; a reference that opens with a colon
    is refused ("missing protocol scheme"). *)
Record url : Type := mkUrl { location : string; query : string }.

Definition Parse (u : url) (ref : string) : option url :=
  if String.prefix ":" ref then None
  else Some {| location := ref; query := "" |}.

Definition String_ (u : url) : string :=
  if String.eqb (query u) "" then location u
  else location u +:+ "?" +:+ query u.

Definition set_RawQuery (u : url) (q : string) : url :=
  {| location := location u; query := q |}.

#[export] Instance url_lib : UrlLib url :=
  {| url_Parse := Parse; url_String := String_;
     url_RawQuery := query; url_set_RawQuery := set_RawQuery |}.

(** A stand-in decoder: the first byte of a document tells its kind. *)
Definition Decode (b : list Z) : Decoded :=
  match b with
  | [] => DecodeError
  | x :: _ =>
      if x =? 1 then
        MASTER [ {| VariantURI := "http://cdn/low.m3u8"; Bandwidth := 1280000 |};
                 {| VariantURI := "http://cdn/high.m3u8"; Bandwidth := 5120000 |} ]
      else if x =? 2 then
        MEDIA [ Some {| URI := "http://cdn/seg0.ts"; Duration := two_seconds |} ]
      else DecodeError
  end.

Definition serve (u : string) : HttpResult :=
  if String.eqb u "http://cdn/master.m3u8" then HttpStatus 200 (Some [1])
  else if String.eqb u "http://cdn/low.m3u8" then HttpStatus 200 (Some [2])
  else if String.eqb u "http://cdn/high.m3u8" then HttpStatus 200 (Some [2])
  else if String.eqb u "http://cdn/seg0.ts" then HttpStatus 200 (Some [71; 64])
  else HttpStatus 404 None.

(** Every request answered, every write succeeding. *)
Definition online : Env :=
  {| http_Do := fun _ u => serve u;
     time_Now := fun n => T0 + Z.of_nat n;
     WriteFile_ok := fun _ _ => true |}.

(** Playlists answered, the segment download refused. *)
Definition segment_down : Env :=
  {| http_Do := fun _ u =>
       if String.eqb u "http://cdn/seg0.ts" then HttpStatus 503 None
       else serve u;
     time_Now := fun n => T0 + Z.of_nat n;
     WriteFile_ok := fun _ _ => true |}.

Definition master_url : url :=
  {| location := "http://cdn/master.m3u8"; query := "" |}.

Definition media_url : url :=
  {| location := "http://cdn/low.m3u8"; query := "" |}.

Definition seg0 : MediaSegment :=
  {| URI := "http://cdn/seg0.ts"; Duration := two_seconds |}.

End Scenario.

(** ** Records as the fetch loops build them *)

Module Arrival.
Import GoInt DB.

(** A record of an arrival the fetch loops can produce: a timestamp after
    1970 that fits [int64], and a finite duration. *)
Definition regular (item : DatabaseItem) : Prop :=
  0 <= T item < two63 /\ float_is_finite (Len item) = true.

(** Every value of the bucket decodes. *)
Definition decodable (db : Store) : Prop :=
  Forall (fun e => is_Some (json_Unmarshal (snd e))) (Bolt.entries db).

End Arrival.

(** ** The database file: named buckets ([database_init],
    [database_count_segments]) *)

Module DBFile.
Import GoInt DB.

(** The bbolt file as the program sees it: its top-level buckets by name.  *)
Record Database : Type := mkDatabase {
  buckets : gmap string Store
}.

(** [dbbucket = []byte("main")]. *)
Definition dbbucket : string := "main".

(** A file that [bbolt.Open] has just created. *)
Definition fresh : Database := {| buckets := ∅ |}.

(** [tx.CreateBucketIfNotExists]. *)
Definition CreateBucketIfNotExists (name : string) (d : Database) : Database :=
  match buckets d !! name with
  | Some _ => d
  | None => {| buckets := <[name := Bolt.empty]> (buckets d) |}
  end.

(** [database_init] on the file [bbolt.Open] returned. *)
Definition database_init (d : Database) : Database :=
  CreateBucketIfNotExists dbbucket d.

(** [database_store] as a transaction on the file: [tx.Bucket(dbbucket)] is
    nil when the bucket is missing, and the first call on it panics
    ([None]). *)
Definition file_store (item : DatabaseItem) (d : Database)
  : option (DatabaseItem * Database) :=
  bucket ← buckets d !! dbbucket;
  let '(item', bucket') := database_store item bucket in
  Some (item', {| buckets := <[dbbucket := bucket']> (buckets d) |}).

(** One iteration of [database_worker] on the file. *)
Definition file_worker_step (now flagTail : Z) (d : Database)
  : option (Sweep * Database) :=
  bucket ← buckets d !! dbbucket;
  let r := database_worker_step now flagTail bucket in
  Some (r, {| buckets := <[dbbucket := sweep_db r]> (buckets d) |}).

Definition file_last_5 (d : Database) : option (list DatabaseItem) :=
  database_last_5 <$> buckets d !! dbbucket.

(** [database_count_segments]: the key count of the bucket named
    "segments", zero when there is no such bucket. *)
Definition database_count_segments (d : Database) : Z :=
  match buckets d !! "segments"%string with
  | None => 0
  | Some b => Z.of_nat (Bolt.KeyN b)
  end.

(** The writers of the file, and a sequence of them run in order. *)
Inductive Write : Type :=
| WriteStore (item : DatabaseItem)
| WriteSweep (now flagTail : Z).

Fixpoint run_writes (ws : list Write) (d : Database) : option Database :=
  match ws with
  | [] => Some d
  | WriteStore item :: ws' =>
      r ← file_store item d; run_writes ws' (snd r)
  | WriteSweep now flagTail :: ws' =>
      r ← file_worker_step now flagTail d; run_writes ws' (snd r)
  end.

Definition is_store (w : Write) : bool :=
  match w with WriteStore _ => true | WriteSweep _ _ => false end.

(** How many of the writes are stores. *)
Definition stores (ws : list Write) : nat :=
  length (filter (fun w => is_store w = true) ws).

End DBFile.

(** ** The remaining handlers of [server.go] *)

Module Handlers.
Import DB Server.

(** What [handleServeFile] sends. *)
Inductive FileResponse : Type :=
| ServeBytes (content_type : string) (body : list Z)
| ServeError (code : Z) (message : string).

(** [handleServeFile]; [ts] is the route variable, the directory a map
    from paths to contents, a missing path being the [ReadFile] error. *)
Definition handleServeFile (ts : string) (files : gmap string (list Z))
  : FileResponse :=
  let filePath := ("./files/" +:+ ts)%string in
  match files !! filePath with
  | None => ServeError StatusNotFound "File not found"
  | Some b => ServeBytes "video/mp2t" b
  end.

Definition StatusBadRequest : Z := 400.

Section WithTime.
(** [time.Parse("20060102150405", s)] followed by [t.Unix()], from the
    [time] package: [None] is the parse error. *)
Variable time_Parse_Unix : string -> option Z.

(** [handleVODPlaylist]. *)
Definition handleVODPlaylist (start limit : string) (db : Store) : Response :=
  let out := [EXTM3U; EXT_X_PLAYLIST_TYPE_VOD; EXT_X_TARGETDURATION 20;
              EXT_X_VERSION 4; EXT_X_MEDIA_SEQUENCE 0] in
  match time_Parse_Unix start with
  | None => HttpError StatusBadRequest "Invalid timestamp format"
  | Some unix =>
      let start := pretty unix in
      let items := database_get start limit db in
      Playlist (out ++ render_items items ++ [EXT_X_ENDLIST])
  end.

End WithTime.

(** [handleVODStream]. *)
Definition handleVODStream (start limit utc : string) (db : Store) : Response :=
  handleVODRequest start limit utc db.

(** The numbers [handleAPIStats] prints; [uptime_seconds] is the bit
    pattern of the [float64] it is given. *)
Record Stats : Type := mkStats {
  segments_total : Z;
  segments_recent : Z;
  cache_size : Z;
  uptime_seconds : Z
}.

(** [handleAPIStats]: [globalCache] is the package-level cache,
    [uptime] what [time.Since(startTime).Seconds()] returned.  [None] is
    the panic of [database_last_5] on a file without its bucket. *)
Definition handleAPIStats (uptime : Z) (globalCache : Cache.FIFOCache)
    (d : DBFile.Database) : option Stats :=
  let segmentCount := DBFile.database_count_segments d in
  recent ← DBFile.file_last_5 d;
  Some {| segments_total := segmentCount;
          segments_recent := Z.of_nat (length recent);
          cache_size := Cache.FIFOCache_Size globalCache;
          uptime_seconds := uptime |}.

End Handlers.

(** ** The handlers of the first [main.go] *)

Module Legacy.
Import DB Server.

(** What a handler of the first [main.go] leaves behind: the playlist it
    wrote, nothing at all when it returned before [w.Write] (the client
    then receives an empty answer with status 200), or the panic of an
    index out of range. *)
Inductive Reply : Type :=
| Wrote (out : list Line)
| Silent
| Panicked.

(** [vod1]. *)
Definition vod1 (start limit utc : string) (db : Store) : Reply :=
  let '(start, limit) :=
    if String.eqb utc "" then (start, limit) else (utc, "300"%string) in
  let out := [EXTM3U; EXT_X_PLAYLIST_TYPE_VOD; EXT_X_TARGETDURATION 20;
              EXT_X_VERSION 4; EXT_X_MEDIA_SEQUENCE 0] in
  let items := database_get start limit db in
  Wrote (out ++ render_items items ++ [EXT_X_ENDLIST]).

(** The closure registered for [/live/stream.m3u8]. *)
Definition live_stream (utc : string) (db : Store) : Reply :=
  if negb (String.eqb utc "") then vod1 "" "" utc db
  else
    let out := [EXTM3U; EXT_X_TARGETDURATION 2; EXT_X_VERSION 4] in
    let items := database_last_5 db in
    if (Z.of_nat (length items) <=? 0) then Silent
    else
      match items !! (length items - 1)%nat with
      | None => Panicked
      | Some last =>
          Wrote (out ++ [EXT_X_MEDIA_SEQUENCE (ID last)]
                     ++ render_items items)
      end.

End Legacy.

(** * Properties *)

(** ** Facts about [bytes.Compare] and [itob] *)

Module BytesFacts.
Import GoInt Bytes.

Lemma Compare_refl (a : list Z) : Compare a a = Eq.
Proof.
  induction a as [|x a IH]; simpl; [reflexivity|].
  rewrite Z.compare_refl. exact IH.
Qed.

Lemma Compare_eq (a b : list Z) : Compare a b = Eq -> a = b.
Proof.
  revert b. induction a as [|x a IH]; intros [|y b]; simpl;
    try discriminate; [reflexivity|].
  destruct (x ?= y) eqn:E; try discriminate.
  intros H. apply Z.compare_eq in E. subst y. f_equal. apply IH, H.
Qed.

Lemma Compare_antisym (a b : list Z) :
  Compare b a = CompOpp (Compare a b).
Proof.
  revert b. induction a as [|x a IH]; intros [|y b]; simpl; try reflexivity.
  rewrite (Z.compare_antisym x y).
  destruct (x ?= y); simpl; auto.
Qed.

Lemma Compare_lt_trans (a b c : list Z) :
  Compare a b = Lt -> Compare b c = Lt -> Compare a c = Lt.
Proof.
  revert b c. induction a as [|x a IH]; intros [|y b] [|z c]; simpl;
    try discriminate; try reflexivity.
  destruct (x ?= y) eqn:Exy; try discriminate;
    destruct (y ?= z) eqn:Eyz; try discriminate; intros Hab Hbc.
  - apply Z.compare_eq in Exy, Eyz. subst. rewrite Z.compare_refl. eauto.
  - apply Z.compare_eq in Exy. subst. rewrite Eyz. reflexivity.
  - apply Z.compare_eq in Eyz. subst. rewrite Exy. reflexivity.
  - assert ((x ?= z) = Lt) as ->; [|reflexivity].
    rewrite Z.compare_lt_iff in *. lia.
Qed.

Lemma eq_b_true (a b : list Z) : eq_b a b = true <-> a = b.
Proof.
  unfold eq_b. split.
  - destruct (Compare a b) eqn:E; try discriminate.
    intros _. apply Compare_eq, E.
  - intros ->. rewrite Compare_refl. reflexivity.
Qed.

Lemma eq_b_false_of_lt (a b : list Z) : Compare a b = Lt -> eq_b a b = false.
Proof. unfold eq_b. intros ->. reflexivity. Qed.

Lemma eq_b_false_of_gt (a b : list Z) : Compare a b = Gt -> eq_b a b = false.
Proof. unfold eq_b. intros ->. reflexivity. Qed.

(** A key not below the bound stays not below it further up the scan. *)
Lemma Compare_not_lt_mono (k k' e : list Z) :
  Compare k e <> Lt -> Compare k k' = Lt -> Compare k' e <> Lt.
Proof.
  intros Hke Hkk' Hk'e. apply Hke. eapply Compare_lt_trans; eauto.
Qed.

Lemma itob_length (v : Z) : length (itob v) = 8%nat.
Proof. reflexivity. Qed.

Lemma byte_range (x : Z) : is_byte (byte x).
Proof.
  unfold is_byte, byte. change 255 with (Z.ones 8).
  rewrite Z.land_ones by lia. apply Z.mod_pos_bound. lia.
Qed.

Lemma itob_bytes (v : Z) : Forall is_byte (itob v).
Proof.
  unfold itob, PutUint64. repeat constructor; apply byte_range.
Qed.

Lemma be_value_bound (l : list Z) :
  Forall is_byte l -> 0 <= be_value l < 256 ^ Z.of_nat (length l).
Proof.
  induction 1 as [|x l Hx _ IH]; simpl be_value; simpl length.
  - change (256 ^ Z.of_nat 0) with 1. lia.
  - rewrite Nat2Z.inj_succ, Z.pow_succ_r by lia.
    unfold is_byte in Hx.
    assert (0 < 256 ^ Z.of_nat (length l)) by (apply Z.pow_pos_nonneg; lia).
    nia.
Qed.

(** On byte strings of one length the lexicographic order is the order
    of the numbers they denote. *)
Lemma Compare_be_value (a b : list Z) :
  length a = length b -> Forall is_byte a -> Forall is_byte b ->
  Compare a b = (be_value a ?= be_value b).
Proof.
  revert b. induction a as [|x a IH]; intros [|y b] Hlen Ha Hb;
    try discriminate; [reflexivity|].
  injection Hlen as Hlen.
  apply Forall_cons in Ha as [Hx Ha]. apply Forall_cons in Hb as [Hy Hb].
  pose proof (be_value_bound a Ha) as Ba.
  pose proof (be_value_bound b Hb) as Bb.
  simpl. rewrite <- Hlen in *. unfold is_byte in *.
  set (p := 256 ^ Z.of_nat (length a)) in *.
  destruct (x ?= y) eqn:E.
  - apply Z.compare_eq in E. subst y.
    rewrite Z.add_compare_mono_l. apply IH; assumption.
  - symmetry. rewrite Z.compare_lt_iff in *. nia.
  - symmetry. rewrite Z.compare_gt_iff in *. nia.
Qed.

Lemma shift_byte (u k : Z) :
  0 <= k -> byte (Z.shiftr u k) = u / 2 ^ k - 256 * (u / 2 ^ (k + 8)).
Proof.
  intros Hk. unfold byte. change 255 with (Z.ones 8).
  rewrite Z.land_ones, Z.shiftr_div_pow2 by lia.
  rewrite Z.pow_add_r by lia.
  rewrite <- Z.div_div by (try apply Z.pow_pos_nonneg; lia).
  change (2 ^ 8) with 256.
  pose proof (Z.div_mod (u / 2 ^ k) 256). lia.
Qed.

Lemma be_value_PutUint64 (u : Z) :
  0 <= u < 2 ^ 64 -> be_value (PutUint64 u) = u.
Proof.
  intros Hu. unfold PutUint64.
  replace (byte u) with (byte (Z.shiftr u 0))
    by (rewrite Z.shiftr_0_r; reflexivity).
  rewrite !shift_byte by lia.
  cbn [be_value length].
  change (56 + 8) with 64; change (48 + 8) with 56; change (40 + 8) with 48;
    change (32 + 8) with 40; change (24 + 8) with 32; change (16 + 8) with 24;
    change (8 + 8) with 16; change (0 + 8) with 8.
  rewrite (Z.div_small u (2 ^ 64)) by lia.
  change (2 ^ 0) with 1. rewrite Z.div_1_r.
  cbn [Z.of_nat Pos.of_succ_nat Pos.succ].
  generalize (u / 2 ^ 56) (u / 2 ^ 48) (u / 2 ^ 40) (u / 2 ^ 32)
             (u / 2 ^ 24) (u / 2 ^ 16) (u / 2 ^ 8).
  intros.
  change (256 ^ 7) with 72057594037927936.
  change (256 ^ 6) with 281474976710656.
  change (256 ^ 5) with 1099511627776.
  change (256 ^ 4) with 4294967296.
  change (256 ^ 3) with 16777216.
  change (256 ^ 2) with 65536.
  change (256 ^ 1) with 256.
  change (256 ^ 0) with 1.
  lia.
Qed.

Lemma be_value_itob (v : Z) : be_value (itob v) = uint64 v.
Proof.
  unfold itob. apply be_value_PutUint64.
  apply Z.mod_pos_bound. reflexivity.
Qed.

(** [itob] turns the order of the [uint64] values into byte order. *)
Lemma Compare_itob (a b : Z) :
  Compare (itob a) (itob b) = (uint64 a ?= uint64 b).
Proof.
  rewrite Compare_be_value, !be_value_itob; auto using itob_bytes.
Qed.

Lemma itob_inj (a b : Z) : itob a = itob b -> uint64 a = uint64 b.
Proof.
  intros H. rewrite <- !be_value_itob, H. reflexivity.
Qed.

Lemma uint64_small (v : Z) : 0 <= v < two64 -> uint64 v = v.
Proof. intros H. unfold uint64. apply Z.mod_small, H. Qed.

Lemma int64_small (v : Z) : in_int64 v -> int64 v = v.
Proof.
  unfold in_int64, int64, two63, two64. intros H.
  rewrite Z.mod_small; lia.
Qed.

End BytesFacts.

(** ** Facts about the bucket *)

Module BoltFacts.
Import GoInt Bytes Bolt BytesFacts.

Section WithValues.
Context {V : Type}.
Implicit Types (es : list (list Z * V)) (k : list Z) (v : V).

Lemma sorted_keys_tail (k : list Z) (ks : list (list Z)) :
  sorted_keys (k :: ks) -> sorted_keys ks.
Proof. simpl. tauto. Qed.

(** In a sorted key list the head is below everything after it. *)
Lemma sorted_keys_head_lt (k : list Z) (ks : list (list Z)) :
  sorted_keys (k :: ks) -> forall k', k' ∈ ks -> Compare k k' = Lt.
Proof.
  revert k. induction ks as [|k1 ks IH]; intros k Hs k' Hin.
  - inversion Hin.
  - destruct Hs as [Hlt Hs]. apply elem_of_cons in Hin as [->|Hin]; auto.
    eapply Compare_lt_trans; [exact Hlt|]. apply IH; auto.
Qed.

Lemma get_entries_elem es k v :
  get_entries k es = Some v -> (k, v) ∈ es.
Proof.
  induction es as [|[k' v'] es IH]; simpl; [discriminate|].
  destruct (eq_b k k') eqn:E.
  - apply eq_b_true in E. subst k'. intros [= ->]. left.
  - intros H. right. auto.
Qed.

Lemma get_entries_key es k v :
  get_entries k es = Some v -> k ∈ map fst es.
Proof.
  intros H. apply get_entries_elem in H.
  change k with (fst (k, v)). apply list_elem_of_fmap_2, H.
Qed.

Lemma get_entries_below es k k0 :
  sorted_keys (k0 :: map fst es) -> Compare k k0 <> Gt ->
  get_entries k es = None.
Proof.
  intros Hs Hk. destruct (get_entries k es) eqn:G; [|reflexivity].
  apply get_entries_key in G.
  pose proof (sorted_keys_head_lt _ _ Hs _ G) as Hlt.
  exfalso. apply Hk. rewrite Compare_antisym, Hlt. reflexivity.
Qed.

Lemma get_put_same es k v : get_entries k (put_entries k v es) = Some v.
Proof.
  induction es as [|[k' v'] es IH]; simpl.
  - rewrite (proj2 (eq_b_true k k) eq_refl). reflexivity.
  - destruct (Compare k k') eqn:E; simpl.
    + rewrite (proj2 (eq_b_true k k) eq_refl). reflexivity.
    + rewrite (proj2 (eq_b_true k k) eq_refl). reflexivity.
    + rewrite (eq_b_false_of_gt _ _ E). exact IH.
Qed.

Lemma eq_b_false_of_ne (a b : list Z) : a <> b -> eq_b a b = false.
Proof.
  intros H. destruct (eq_b a b) eqn:E; [|reflexivity].
  apply eq_b_true in E. contradiction.
Qed.

Lemma get_put_other es k v k2 :
  k2 <> k -> get_entries k2 (put_entries k v es) = get_entries k2 es.
Proof.
  intros Hne. induction es as [|[k' v'] es IH]; simpl.
  - rewrite (eq_b_false_of_ne _ _ Hne). reflexivity.
  - destruct (Compare k k') eqn:E; simpl.
    + apply Compare_eq in E. subst k'.
      rewrite (eq_b_false_of_ne _ _ Hne). reflexivity.
    + rewrite (eq_b_false_of_ne _ _ Hne). reflexivity.
    + rewrite IH. reflexivity.
Qed.

(** Overwriting a present key of a sorted table leaves its keys as
    they were. *)
Lemma keys_put_present es k v :
  sorted_keys (map fst es) -> is_Some (get_entries k es) ->
  map fst (put_entries k v es) = map fst es.
Proof.
  induction es as [|[k' v'] es IH]; simpl; intros Hs [w Hw];
    [discriminate|].
  destruct (Compare k k') eqn:E; simpl.
  - apply Compare_eq in E. subst k'. reflexivity.
  - rewrite (eq_b_false_of_lt _ _ E) in Hw.
    rewrite (get_entries_below es k k') in Hw;
      [discriminate|exact Hs|congruence].
  - rewrite (eq_b_false_of_gt _ _ E) in Hw.
    f_equal. apply IH; [tauto|eauto].
Qed.

Lemma put_entries_head es k v :
  exists k1 v1 rest, put_entries k v es = (k1, v1) :: rest /\
    (k1 = k \/ exists w es', es = (k1, w) :: es' /\ Compare k k1 = Gt).
Proof.
  destruct es as [|[k' v'] es]; simpl; [eauto 6|].
  destruct (Compare k k') eqn:E; eauto 10.
Qed.

Lemma sorted_put es k v :
  sorted_keys (map fst es) -> sorted_keys (map fst (put_entries k v es)).
Proof.
  induction es as [|[k' v'] es IH]; simpl; intros Hs; [tauto|].
  destruct (Compare k k') eqn:E; simpl.
  - apply Compare_eq in E. subst k'. exact Hs.
  - split; [exact E|exact Hs].
  - destruct Hs as [Hhd Hs]. split; [|apply IH, Hs].
    destruct (put_entries_head es k v) as (k1 & v1 & rest & -> & Hk1).
    simpl. destruct Hk1 as [->|(w & es' & -> & _)].
    + rewrite Compare_antisym, E. reflexivity.
    + exact Hhd.
Qed.

Lemma Compare_lt_ne (a b : list Z) : Compare a b = Lt -> a <> b.
Proof. intros H ->. rewrite Compare_refl in H. discriminate. Qed.

Lemma sorted_entry_above es k0 k' v' :
  sorted_keys (k0 :: map fst es) -> (k', v') ∈ es -> Compare k0 k' = Lt.
Proof.
  intros Hs Hin. apply (sorted_keys_head_lt _ _ Hs).
  change k' with (fst (k', v')). apply list_elem_of_fmap_2, Hin.
Qed.

(** What a sorted table holds after [Put]: the new pair, and the old
    pairs under the other keys. *)
Lemma elem_of_put es k v k' v' :
  sorted_keys (map fst es) ->
  (k', v') ∈ put_entries k v es ->
  (k', v') = (k, v) \/ ((k', v') ∈ es /\ k' <> k).
Proof.
  induction es as [|[k1 v1] es IH]; simpl; intros Hs H.
  - apply list_elem_of_singleton in H. auto.
  - destruct (Compare k k1) eqn:E.
    + apply Compare_eq in E. subst k1.
      apply elem_of_cons in H as [H|H]; [auto|].
      right. split; [right; exact H|].
      apply not_eq_sym, Compare_lt_ne.
      eapply sorted_entry_above; eauto.
    + apply elem_of_cons in H as [H|H]; [auto|]. right. split; [exact H|].
      apply not_eq_sym, Compare_lt_ne.
      apply elem_of_cons in H as [[= -> ->]|H]; [exact E|].
      eapply Compare_lt_trans; [exact E|].
      eapply sorted_entry_above; eauto.
    + apply elem_of_cons in H as [[= -> ->]|H].
      * right. split; [left|]. intros ->.
        rewrite Compare_refl in E. discriminate.
      * destruct (IH (sorted_keys_tail _ _ Hs) H) as [?|[? ?]]; [auto|].
        right. split; [right|]; assumption.
Qed.

(** In a sorted table a pair is found under its key. *)
Lemma get_entries_of_elem es k v :
  sorted_keys (map fst es) -> (k, v) ∈ es -> get_entries k es = Some v.
Proof.
  induction es as [|[k1 v1] es IH]; intros Hs Hin; [inversion Hin|].
  simpl. apply elem_of_cons in Hin as [[= -> ->]|Hin].
  - rewrite (proj2 (eq_b_true k1 k1) eq_refl). reflexivity.
  - pose proof (sorted_entry_above es k1 k v Hs Hin) as Hlt.
    rewrite eq_b_false_of_gt
      by (rewrite Compare_antisym, Hlt; reflexivity).
    apply IH; [eapply sorted_keys_tail, Hs|exact Hin].
Qed.

Lemma sorted_keys_NoDup (ks : list (list Z)) : sorted_keys ks -> NoDup ks.
Proof.
  induction ks as [|k ks IH]; intros Hs; constructor.
  - intros Hin. pose proof (sorted_keys_head_lt _ _ Hs _ Hin) as H.
    rewrite Compare_refl in H. discriminate.
  - apply IH. eapply sorted_keys_tail, Hs.
Qed.

End WithValues.

End BoltFacts.

(** ** Facts about the segment store *)

Module DBFacts.
Import GoInt Bytes Bolt DB BytesFacts BoltFacts.

Lemma store_inv_empty : store_inv Bolt.empty.
Proof.
  split; [exact I|]. split; [unfold two64; simpl; lia|].
  intros k item H. inversion H.
Qed.

Lemma database_store_eq (item : DatabaseItem) (db : Store) :
  database_store item db =
    (set_ID item (uint64 (sequence db + 1)),
     {| entries := put_entries (itob (T item))
                     (json_Marshal (set_ID item (uint64 (sequence db + 1))))
                     (entries db);
        sequence := uint64 (sequence db + 1) |}).
Proof. reflexivity. Qed.

Lemma json_Marshal_inv (item item' : DatabaseItem) :
  json_Marshal item = EncJSON item' -> item' = json_text item.
Proof.
  unfold json_Marshal. destruct (float_is_finite (Len item)); congruence.
Qed.

(** [database_store] keeps the invariant while the counter has room. *)
Lemma store_inv_database_store (item : DatabaseItem) (db : Store) :
  store_inv db -> sequence db + 1 < two64 ->
  store_inv (snd (database_store item db)).
Proof.
  intros (Hwf & Hseq & Hrec) Hroom.
  rewrite database_store_eq. cbn [snd].
  rewrite uint64_small by lia.
  split; [|split]; cbn [sequence entries]; [|lia|].
  - unfold well_formed, keys. cbn [entries]. apply sorted_put, Hwf.
  - intros k it Hin. apply elem_of_put in Hin; [|exact Hwf].
    destruct Hin as [[= -> Henc]|[Hin _]].
    + symmetry in Henc. apply json_Marshal_inv in Henc. subst it.
      cbn [T ID set_ID json_text]. split; [reflexivity|lia].
    + destruct (Hrec _ _ Hin). split; [assumption|lia].
Qed.

(** No two records of a bucket carry the same arrival timestamp. *)
Lemma store_inv_timestamps_NoDup (db : Store) :
  store_inv db -> NoDup (map T (items db)).
Proof.
  intros (Hwf & _ & Hrec). unfold items, well_formed, keys in *.
  revert Hwf Hrec. generalize (entries db) as es.
  induction es as [|[k v] es IH]; intros Hs Hrec; [constructor|].
  assert (NoDup (map T (omap (fun e => json_Unmarshal (snd e)) es))) as Htl.
  { apply IH; [eapply sorted_keys_tail, Hs|].
    intros k' it Hin. apply Hrec. right. exact Hin. }
  cbn [omap list_omap snd]. destruct v as [|it]; cbn [json_Unmarshal]; [exact Htl|].
  cbn [map]. constructor; [|exact Htl].
  intros Hin. apply list_elem_of_fmap in Hin as (j & HT & Hj).
  apply list_elem_of_omap in Hj as ([kj vj] & Hmem & Hdec).
  destruct vj as [|j']; cbn in Hdec; [discriminate|]. injection Hdec as ->.
  destruct (Hrec k it ltac:(left)) as [Hk _].
  destruct (Hrec kj j ltac:(right; exact Hmem)) as [Hkj _].
  pose proof (sorted_entry_above es k kj _ Hs Hmem) as Hlt.
  rewrite Hk, Hkj, HT, Compare_refl in Hlt. discriminate.
Qed.

(** The copy loop of [database_last_5] yields the scanned items in
    reverse, without the one at index 0. *)
Lemma last_5_copy_take (tmp : list DatabaseItem) :
  forall (i : nat) (rt : list DatabaseItem),
    (i <= length (tail tmp))%nat ->
    last_5_copy i tmp rt = rt ++ rev (take i (tail tmp)).
Proof.
  induction i as [|j IH]; intros rt Hi.
  - simpl. rewrite app_nil_r. reflexivity.
  - destruct tmp as [|x0 tl]; [simpl in Hi; lia|]. cbn [tail] in *.
    destruct (tl !! j) as [x|] eqn:Hx.
    2:{ apply lookup_ge_None in Hx. lia. }
    cbn [last_5_copy]. change ((x0 :: tl) !! S j) with (tl !! j).
    rewrite Hx, IH by lia. cbn [tail].
    rewrite (take_S_r _ _ _ Hx), rev_app_distr, <- app_assoc.
    reflexivity.
Qed.

Lemma database_last_5_eq (db : Store) :
  database_last_5 db =
    rev (tail (last_5_scan (scan_backward db) 0 [])).
Proof.
  unfold database_last_5.
  set (tmp := last_5_scan (scan_backward db) 0 []).
  rewrite last_5_copy_take.
  - rewrite firstn_all2; [reflexivity|]. destruct tmp; simpl; lia.
  - destruct tmp; simpl; lia.
Qed.

Lemma last_5_scan_length (es : list (list Z * Encoded)) :
  forall (n : Z) (tmp : list DatabaseItem),
    0 <= n <= 7 ->
    Forall (fun e => is_Some (json_Unmarshal (snd e))) es ->
    length (last_5_scan es n tmp)
    = (length tmp + Nat.min (length es) (Z.to_nat (7 - n)))%nat.
Proof.
  induction es as [|[k v] es IH]; intros n tmp Hn Hall.
  - simpl. lia.
  - apply Forall_cons in Hall as [[item Hv] Hall]. cbn [snd] in Hv.
    cbn [last_5_scan]. destruct (n >=? 7) eqn:E.
    + assert (n = 7) as -> by lia. simpl. lia.
    + rewrite Hv, IH by (auto; lia). rewrite length_app. cbn [length].
      replace (Z.to_nat (7 - n)) with (S (Z.to_nat (7 - (n + 1)))) by lia.
      lia.
Qed.

(** With every value decodable, [database_last_5] returns one record
    fewer than the (at most seven) it scanned. *)
Lemma database_last_5_length (db : Store) :
  Forall (fun e => is_Some (json_Unmarshal (snd e))) (entries db) ->
  length (database_last_5 db) = (Nat.min (KeyN db) 7 - 1)%nat.
Proof.
  intros Hall. rewrite database_last_5_eq, length_rev.
  assert (length (last_5_scan (scan_backward db) 0 [])
          = Nat.min (KeyN db) 7) as Hlen.
  { rewrite last_5_scan_length.
    - unfold scan_backward, KeyN. rewrite length_rev. simpl. lia.
    - lia.
    - unfold scan_backward. apply Forall_rev, Hall. }
  destruct (last_5_scan (scan_backward db) 0 []); simpl in *; lia.
Qed.

Lemma sublist_rev {A} (l1 l2 : list A) :
  sublist l1 l2 -> sublist (rev l1) (rev l2).
Proof.
  induction 1 as [|x l1 l2 _ IH|x l1 l2 _ IH]; cbn [rev].
  - constructor.
  - apply sublist_app; [exact IH|reflexivity].
  - apply sublist_inserts_r, IH.
Qed.

Lemma sublist_omap {A B} (f : A -> option B) (l1 l2 : list A) :
  sublist l1 l2 -> sublist (omap f l1) (omap f l2).
Proof.
  induction 1 as [|x l1 l2 _ IH|x l1 l2 _ IH]; cbn [omap list_omap].
  - constructor.
  - destruct (f x); [constructor|]; exact IH.
  - destruct (f x); [constructor|]; exact IH.
Qed.

Lemma omap_rev {A B} (f : A -> option B) (l : list A) :
  omap f (rev l) = rev (omap f l).
Proof.
  induction l as [|x l IH]; [reflexivity|].
  cbn [rev]. rewrite omap_app, IH. cbn [omap list_omap].
  destruct (f x); cbn [rev]; [reflexivity|].
  rewrite app_nil_r. reflexivity.
Qed.

(** The cursor loop collects the decodable values of a prefix of what is
    ahead of the cursor. *)
Lemma last_5_scan_take (es : list (list Z * Encoded)) :
  forall (n : Z) (tmp : list DatabaseItem),
  exists m : nat,
    last_5_scan es n tmp
    = tmp ++ omap (fun e => json_Unmarshal (snd e)) (take m es).
Proof.
  induction es as [|[k v] es IH]; intros n tmp.
  - exists O. cbn. rewrite app_nil_r. reflexivity.
  - cbn [last_5_scan]. destruct (n >=? 7).
    + exists O. cbn. rewrite app_nil_r. reflexivity.
    + destruct (json_Unmarshal v) as [item|] eqn:Hv.
      * destruct (IH (n + 1) (tmp ++ [item])) as [m Hm].
        exists (S m). rewrite Hm. cbn [take omap list_omap snd].
        rewrite Hv, <- app_assoc. reflexivity.
      * destruct (IH (n + 1) tmp) as [m Hm].
        exists (S m). rewrite Hm. cbn [take omap list_omap snd].
        rewrite Hv. reflexivity.
Qed.

(** The records [database_last_5] returns are records of the bucket, in
    ascending key order. *)
Lemma database_last_5_sublist (db : Store) :
  sublist (database_last_5 db) (items db).
Proof.
  rewrite database_last_5_eq. unfold items, scan_backward.
  destruct (last_5_scan_take (rev (entries db)) 0 []) as [m ->].
  cbn [app]. rewrite <- (rev_involutive (omap _ (entries db))).
  apply sublist_rev. rewrite <- omap_rev.
  etransitivity; [|apply sublist_omap, (sublist_take _ m)].
  generalize (omap (fun e => json_Unmarshal (snd e))
                   (take m (rev (entries db)))).
  intros [|x l]; cbn [tail]; [reflexivity|]. apply sublist_cons, reflexivity.
Qed.

(** Past a key that is not below the bound, the range scan never stops:
    it collects every decodable record to the end of the bucket. *)
Lemma get_scan_all (e : list Z) (es : list (list Z * Encoded)) :
  forall rt,
    Forall (fun p => Compare (fst p) e <> Lt) es ->
    get_scan e es rt = rt ++ omap (fun p => json_Unmarshal (snd p)) es.
Proof.
  induction es as [|[k v] es IH]; intros rt Hall.
  - simpl. rewrite app_nil_r. reflexivity.
  - apply Forall_cons in Hall as [Hk Hall]. cbn [fst] in Hk.
    cbn [get_scan omap list_omap snd].
    destruct (Compare k e) eqn:E; try congruence;
      destruct (json_Unmarshal v); rewrite IH by assumption;
      rewrite <- ?app_assoc; reflexivity.
Qed.

(** What the range scan returns on a sorted run of entries: nothing when
    the first key is below the bound, everything otherwise. *)
Lemma get_scan_sorted (e : list Z) (es : list (list Z * Encoded)) :
  sorted_keys (map fst es) ->
  get_scan e es [] =
    match es with
    | [] => []
    | (k, _) :: _ =>
        if lt_b k e then []
        else omap (fun p => json_Unmarshal (snd p)) es
    end.
Proof.
  destruct es as [|[k v] es]; intros Hs; [reflexivity|].
  unfold lt_b. destruct (Compare k e) eqn:E.
  - apply (get_scan_all e ((k, v) :: es) []).
    constructor; [cbn; congruence|].
    apply Forall_forall. intros [k' v'] Hin. cbn [fst].
    apply (Compare_not_lt_mono k k' e); [congruence|].
    eapply sorted_entry_above; eauto.
  - simpl. rewrite E. reflexivity.
  - apply (get_scan_all e ((k, v) :: es) []).
    constructor; [cbn; congruence|].
    apply Forall_forall. intros [k' v'] Hin. cbn [fst].
    apply (Compare_not_lt_mono k k' e); [congruence|].
    eapply sorted_entry_above; eauto.
Qed.

(** The sweep stops at the first key below the cutoff: when the oldest
    record is one, nothing is deleted. *)
Lemma database_sweep_oldest_below (current : Z) (db : Store) k v rest :
  entries db = (k, v) :: rest -> Compare k (itob current) = Lt ->
  database_sweep current db
  = {| sweep_db := db; sweep_removed := []; sweep_err := false |}.
Proof.
  intros He Hlt. unfold database_sweep, scan_forward. rewrite He.
  simpl. rewrite Hlt. reflexivity.
Qed.

(** Without overflow the worker's cutoff is [now] minus [flagTail * 3600]
    nanoseconds. *)
Lemma worker_current_eq (now flagTail : Z) :
  0 <= now < two63 -> 0 <= flagTail <= 1000000 ->
  worker_current now flagTail = now - flagTail * 3600.
Proof.
  intros Hn Hf. unfold worker_current, time_Nanosecond.
  unfold two63 in Hn.
  assert (forall v, - 2 ^ 63 <= v < 2 ^ 63 -> int64 v = v) as small
    by (intros v Hv; apply int64_small; exact Hv).
  rewrite (small (flagTail * 60)) by lia.
  rewrite (small (flagTail * 60 * 60)) by lia.
  rewrite (small (flagTail * 60 * 60 * 1)) by lia.
  rewrite small by lia. lia.
Qed.

End DBFacts.

(** * The claims *)

Section StoreClaims.
Import GoInt Bytes Bolt DB BytesFacts BoltFacts DBFacts.

(** C10.  When [database_store] is handed an item whose arrival timestamp
    equals that of a record [prev] already in the bucket, the new record
    takes [prev]'s place under the same eight-byte key: the key then holds
    the encoding of the new item, the number of records is unchanged, no
    two records of the bucket share a timestamp, the new identifier
    differs from [prev]'s, [prev] is no longer among the records, and
    every other key keeps its value. *)
Theorem database_store_same_timestamp_replaces
    (db : Store) (item prev : DatabaseItem) :
  store_inv db -> sequence db + 1 < two64 ->
  prev ∈ items db -> T prev = T item ->
  let item' := fst (database_store item db) in
  let db' := snd (database_store item db) in
  Get (itob (T item)) db' = Some (json_Marshal item') /\
  KeyN db' = KeyN db /\
  NoDup (map T (items db')) /\
  ID item' <> ID prev /\
  (prev ∉ items db') /\
  (forall k, k <> itob (T item) -> Get k db' = Get k db).
Proof.
  intros Hinv Hroom Hprev HT item' db'.
  pose proof (store_inv_database_store item db Hinv Hroom) as Hinv'.
  fold db' in Hinv'.
  destruct Hinv as (Hwf & Hseq & Hrec).
  apply list_elem_of_omap in Hprev as ([kp vp] & Hmem & Hdec).
  destruct vp as [|p]; cbn in Hdec; [discriminate|]. injection Hdec as ->.
  destruct (Hrec _ _ Hmem) as [Hkp Hidp]. rewrite HT in Hkp. subst kp.
  assert (Hget : get_entries (itob (T item)) (entries db)
                 = Some (EncJSON prev))
    by (apply get_entries_of_elem; assumption).
  subst item' db'. rewrite database_store_eq in *. cbn [fst snd] in *.
  rewrite uint64_small in * by lia.
  unfold Get, KeyN. cbn [entries ID set_ID].
  repeat split.
  - apply get_put_same.
  - rewrite <- !(length_map fst).
    rewrite keys_put_present; [reflexivity|exact Hwf|eauto].
  - apply store_inv_timestamps_NoDup, Hinv'.
  - lia.
  - intros Hin. apply list_elem_of_omap in Hin as ([kj vj] & Hj & Hdec).
    destruct vj as [|j]; cbn in Hdec; [discriminate|]. injection Hdec as ->.
    cbn [entries] in Hj. apply elem_of_put in Hj; [|exact Hwf].
    destruct Hj as [[= _ Henc]|[Hj Hne]].
    + symmetry in Henc. apply json_Marshal_inv in Henc.
      rewrite Henc in Hidp. cbn in Hidp. lia.
    + destruct (Hrec _ _ Hj) as [Hkj _]. apply Hne.
      rewrite Hkj, HT. reflexivity.
  - intros k Hk. apply get_put_other, Hk.
Qed.

(** The hypotheses of C10 hold in the bucket that received one segment:
    a second segment with the same arrival instant overwrites it. *)
Lemma database_store_same_timestamp_replaces_witness :
  let db := Scenario.one_segment in
  let item := Scenario.arrival Scenario.T0 in
  KeyN (snd (database_store item db)) = KeyN db /\
  ID (fst (database_store item db)) = 2.
Proof.
  pose proof (database_store_same_timestamp_replaces
                Scenario.one_segment (Scenario.arrival Scenario.T0)
                (set_ID (Scenario.arrival Scenario.T0) 1)) as H.
  cbv zeta in H.
  destruct H as (_ & Hn & _).
  - apply (store_inv_database_store _ Bolt.empty store_inv_empty).
    vm_compute. reflexivity.
  - vm_compute. reflexivity.
  - vm_compute. left.
  - reflexivity.
  - split; [exact Hn|vm_compute; reflexivity].
Defined.

End StoreClaims.

Section StoreDefects.
Import GoInt Bytes Bolt DB Scenario.

(** C1.  [database_get] on the bucket holding one record that arrived at
    second 10: asked for the minute starting at second 10, whose window
    [[10e9, 70e9)] contains the record, it returns nothing; asked for
    zero minutes starting at second 0, whose window is empty, it returns
    the record.  The scan leaves at the first key below [end] instead of
    the first key at or above it, and [end] adds the minutes to [si]
    rather than to [si * 1e9]. *)
Theorem database_get_window_failing_input :
  database_get "10" "1" at_ten_seconds = [] /\
  database_get "0" "0" at_ten_seconds
  = [set_ID (arrival 10000000000) 1].
Proof. split; vm_compute; reflexivity. Qed.

(** C2.  [database_last_5] after three appends at [T0], [T0 + 1e9] and
    [T0 + 2e9] returns the two older records only, and after a single
    append it returns nothing: the copy loop stops before index 0, which
    holds the newest record. *)
Theorem database_last_5_drops_newest :
  database_last_5 three_segments
  = [set_ID (arrival T0) 1; set_ID (arrival (T0 + 1000000000)) 2] /\
  database_last_5 one_segment = [].
Proof. split; vm_compute; reflexivity. Qed.

(** C3.  One sweep over the three-record bucket: with the cutoff at
    [T0 + 1.5e9] the record at [T0] is below the cutoff and is kept (the
    bucket is unchanged); with the cutoff at [T0 - 1] no record is below
    it and all three are deleted.  The loop returns at the first key
    below the cutoff and deletes the keys at or above it. *)
Theorem database_sweep_failing_input :
  sweep_db (database_sweep (T0 + 1500000000) three_segments)
  = three_segments /\
  entries (sweep_db (database_sweep (T0 - 1) three_segments)) = [] /\
  sweep_removed (database_sweep (T0 - 1) three_segments)
  = map Name (items three_segments).
Proof. repeat split; vm_compute; reflexivity. Qed.

(** C4.  With [--tail 24] and the clock at [T0] the worker's cutoff is
    [T0 - 86400]: the horizon is 24 * 3600 nanoseconds, not 24 hours
    ([24 * 3600 * 1e9] nanoseconds), because the product is scaled by
    [time.Nanosecond]. *)
Theorem worker_current_failing_input :
  worker_current T0 24 = T0 - 86400 /\
  worker_current T0 24 <> T0 - 24 * 3600 * 1000000000.
Proof. split; vm_compute; [reflexivity|discriminate]. Qed.

End StoreDefects.

(** ** Facts about the FIFO cache *)

Module CacheFacts.
Import Cache.

Lemma consistent_new (K : Z) : 0 <= K -> within K (NewFIFOCache K).
Proof.
  intros HK. repeat split; simpl; try lia.
  - constructor.
  - intros H. set_solver.
  - intros H. inversion H.
Qed.

Lemma consistent_set (c : FIFOCache) :
  consistent c -> cache c = list_to_set (list_ c).
Proof.
  intros [_ H]. apply set_eq. intros x.
  rewrite elem_of_list_to_set. apply H.
Qed.

(** [len(c.cache)] is the length of the list. *)
Lemma consistent_size (c : FIFOCache) :
  consistent c -> FIFOCache_Size c = Z.of_nat (length (list_ c)).
Proof.
  intros Hc. unfold FIFOCache_Size. rewrite (consistent_set c Hc).
  rewrite size_list_to_set; [reflexivity|apply Hc].
Qed.

(** The eviction loop of a cache with a non-negative bound terminates
    without a panic and keeps the [maxSize] newest keys. *)
Lemma evict_take (c : FIFOCache) :
  0 <= maxSize c -> consistent c ->
  exists c', evict c = Some c' /\
    maxSize c' = maxSize c /\
    list_ c' = take (Z.to_nat (maxSize c)) (list_ c) /\
    consistent c'.
Proof.
  funelim (evict c); intros HK Hc.
  - exists c. repeat split; try apply Hc.
    rewrite take_ge; [reflexivity|lia].
  - destruct (proj1 (last_Some _ _) e) as [l' Hl].
    assert (Z.of_nat (length l') + 1 > maxSize c) as Hlen.
    { pose proof g as g'. rewrite Hl, length_app in g'.
      cbn [length] in g'. lia. }
    clear Heq Heqcall.
    destruct Hc as [Hnd Hmem]. rewrite Hl in Hnd, Hmem.
    apply NoDup_app in Hnd as (Hnd & Hfresh & _).
    destruct H as (c' & Hev & Hmax & Hlist & Hc').
    + exact HK.
    + split; cbn [list_ cache]; rewrite Hl, removelast_last; [exact Hnd|].
      intros x. rewrite elem_of_difference, Hmem, elem_of_app.
      rewrite !list_elem_of_singleton, elem_of_singleton.
      split; [tauto|]. intros Hx. split; [auto|].
      intros ->. apply (Hfresh item Hx). left.
    + exists c'. cbn [maxSize list_] in *.
      split; [exact Hev|]. split; [exact Hmax|]. split; [|exact Hc'].
      rewrite Hlist, Hl, removelast_last.
      rewrite take_app_le by lia. reflexivity.
  - destruct (list_ c) as [|x l] eqn:Hl.
    + simpl in g. lia.
    + exfalso. clear -e. revert x e. induction l as [|y l IH]; intros x e.
      * discriminate.
      * apply (IH y). exact e.
Qed.

(** The contract of [Set] on a consistent cache with a non-negative
    bound. *)
Lemma FIFOCache_Set_spec (url : string) (c : FIFOCache) :
  0 <= maxSize c -> consistent c ->
  exists c',
    FIFOCache_Set url c = Some (c', bool_decide (url ∉ cache c)) /\
    maxSize c' = maxSize c /\ consistent c' /\
    (url ∈ cache c -> c' = c) /\
    (url ∉ cache c ->
       list_ c' = take (Z.to_nat (maxSize c)) (url :: list_ c)).
Proof.
  intros HK Hc. unfold FIFOCache_Set.
  destruct (decide (url ∈ cache c)) as [Hin|Hout].
  - exists c. rewrite bool_decide_eq_false_2 by tauto.
    repeat split; try apply Hc; tauto.
  - rewrite bool_decide_eq_true_2 by exact Hout.
    destruct (evict_take {| cache := {[url]} ∪ cache c;
                            list_ := url :: list_ c;
                            maxSize := maxSize c |})
      as (c' & Hev & Hmax & Hlist & Hc'); [exact HK| |].
    + destruct Hc as [Hnd Hmem]. split; cbn [list_ cache].
      * constructor; [rewrite <- Hmem; exact Hout|exact Hnd].
      * intros x. rewrite elem_of_union, elem_of_singleton, elem_of_cons.
        rewrite Hmem. tauto.
    + exists c'. rewrite Hev. cbn. repeat split; try apply Hc'; auto.
      tauto.
Qed.

Lemma within_Set (K : Z) (url : string) (c : FIFOCache) :
  0 <= K -> within K c ->
  exists c', FIFOCache_Set url c = Some (c', bool_decide (url ∉ cache c))
             /\ within K c'.
Proof.
  intros HK (Hc & Hmax & Hlen).
  destruct (FIFOCache_Set_spec url c) as (c' & HS & Hmax' & Hc' & Hin & Hout);
    [lia|exact Hc|].
  exists c'. split; [exact HS|]. split; [exact Hc'|]. split; [lia|].
  destruct (decide (url ∈ cache c)) as [Hi|Ho].
  - rewrite (Hin Hi). exact Hlen.
  - rewrite (Hout Ho), length_take, Hmax. lia.
Qed.

Lemma within_Clear (K : Z) (c : FIFOCache) :
  0 <= K -> within K c -> within K (FIFOCache_Clear c).
Proof.
  intros HK (_ & Hmax & _). unfold FIFOCache_Clear.
  repeat split; cbn; try lia.
  - constructor.
  - set_solver.
  - intros H. inversion H.
Qed.

(** A cache of capacity 0 is empty whenever it is observed. *)
Lemma within_zero_empty (c : FIFOCache) : within 0 c -> cache c = ∅.
Proof.
  intros (Hc & _ & Hlen). rewrite (consistent_set c Hc).
  destruct (list_ c); [reflexivity|simpl in Hlen; lia].
Qed.

(** Every sequence of calls runs to completion from a cache within its
    bound, and leaves it within its bound. *)
Lemma run_within (K : Z) (calls : list Call) :
  0 <= K -> forall c, within K c ->
  exists c' outs, run calls c = Some (c', outs) /\ within K c' /\
                  (K = 0 -> Forall (eq true) outs).
Proof.
  intros HK. induction calls as [|[url|] calls IH]; intros c Hw.
  - exists c, []. split; [reflexivity|]. split; [exact Hw|].
    intros _. constructor.
  - destruct (within_Set K url c HK Hw) as (c1 & HS & Hw1).
    destruct (IH c1 Hw1) as (c2 & outs & Hrun & Hw2 & Hall).
    exists c2, (bool_decide (url ∉ cache c) :: outs).
    cbn [run]. rewrite HS. cbn. rewrite Hrun. cbn.
    split; [reflexivity|]. split; [exact Hw2|].
    intros ->. constructor; [|auto].
    rewrite (within_zero_empty c Hw).
    symmetry. apply bool_decide_eq_true_2. set_solver.
  - destruct (IH _ (within_Clear K c HK Hw)) as (c2 & outs & Hrun & Hw2 & Hall).
    exists c2, outs. cbn [run]. auto.
Qed.

Lemma run_outs_length (calls : list Call) :
  forall c c' outs, run calls c = Some (c', outs) ->
    length outs = length (filter (fun call => is_Set call = true) calls).
Proof.
  induction calls as [|[url|] calls IH]; intros c c' outs Hrun.
  - injection Hrun as _ <-. reflexivity.
  - cbn [run] in Hrun.
    destruct (FIFOCache_Set url c) as [[c1 b]|]; [|discriminate].
    cbn in Hrun. destruct (run calls c1) as [[c2 bs]|] eqn:E; [|discriminate].
    cbn in Hrun. injection Hrun as _ <-.
    rewrite filter_cons_True by reflexivity. cbn [length].
    f_equal. eapply IH, E.
  - cbn [run] in Hrun. rewrite filter_cons_False by discriminate.
    eapply IH, Hrun.
Qed.

End CacheFacts.

Section CacheClaims.
Import Cache CacheFacts.

(** C7.  In every state [c] the cache reaches from [NewFIFOCache K],
    [K >= 0], by any sequence of calls, [Set url] returns [true] exactly
    when [url] is absent from the map and [false] when it is present; a
    present key leaves the cache as it was; an absent key is pushed to
    the front of the list, the list is cut back to its [K] newest keys,
    and the key is in the map afterwards whenever [K >= 1].  With
    capacity 2 the calls "a", "b", "c", "a", "c" return true, true, true
    (with "a" evicted), true (with "b" evicted), false. *)
Theorem FIFOCache_Set_admits_iff_absent
    (K : Z) (calls : list Call) (c : FIFOCache) (outs : list bool)
    (url : string) :
  0 <= K -> run calls (NewFIFOCache K) = Some (c, outs) ->
  (exists c',
     FIFOCache_Set url c = Some (c', bool_decide (url ∉ cache c)) /\
     (url ∈ cache c -> c' = c) /\
     (url ∉ cache c ->
        list_ c' = take (Z.to_nat K) (url :: list_ c) /\
        (1 <= K -> url ∈ cache c'))) /\
  observe (run (take 3 scenario_calls) (NewFIFOCache 2))
    = Some (["c"; "b"]%string, [true; true; true]) /\
  observe (run (take 4 scenario_calls) (NewFIFOCache 2))
    = Some (["a"; "c"]%string, [true; true; true; true]) /\
  observe (run scenario_calls (NewFIFOCache 2))
    = Some (["a"; "c"]%string, [true; true; true; true; false]).
Proof.
  intros HK Hrun. split; [|repeat split; vm_compute; reflexivity].
  destruct (run_within K calls HK _ (consistent_new K HK))
    as (c0 & outs0 & Hrun0 & Hw & _).
  rewrite Hrun in Hrun0. injection Hrun0 as <- <-.
  destruct Hw as (Hc & Hmax & Hlen).
  destruct (FIFOCache_Set_spec url c) as (c' & HS & _ & Hc' & Hin & Hout);
    [lia|exact Hc|].
  exists c'. split; [exact HS|]. split; [exact Hin|].
  intros Ha. specialize (Hout Ha). rewrite Hmax in Hout.
  split; [exact Hout|].
  intros HK1. apply Hc'. rewrite Hout.
  replace (Z.to_nat K) with (S (Z.to_nat (K - 1))) by lia. left.
Qed.

(** C7 at capacity 2 after [Set "b"]: "a" is admitted, "b" refused. *)
Lemma FIFOCache_Set_admits_iff_absent_witness :
  exists c outs,
    run [CallSet "b"] (NewFIFOCache 2) = Some (c, outs) /\
    (exists c', FIFOCache_Set "a" c = Some (c', true)) /\
    (exists c', FIFOCache_Set "b" c = Some (c', false)).
Proof.
  destruct (run [CallSet "b"] (NewFIFOCache 2)) as [[c outs]|] eqn:E;
    [|vm_compute in E; discriminate].
  exists c, outs. split; [reflexivity|].
  destruct (FIFOCache_Set_admits_iff_absent 2 [CallSet "b"] c outs "a")
    as [(ca & Ha & _) _]; [lia|exact E|].
  destruct (FIFOCache_Set_admits_iff_absent 2 [CallSet "b"] c outs "b")
    as [(cb & Hb & _) _]; [lia|exact E|].
  vm_compute in E. injection E as <- <-.
  split; [exists ca|exists cb]; assumption.
Defined.

(** C8.  From [NewFIFOCache K] with [K >= 0] every sequence of [Set] and
    [Clear] calls runs to completion and leaves [Size() <= K]; with
    [K = 0] every one of its [Set] calls returned [true]. *)
Theorem FIFOCache_Size_never_exceeds_capacity (K : Z) (calls : list Call) :
  0 <= K ->
  exists c outs,
    run calls (NewFIFOCache K) = Some (c, outs) /\
    FIFOCache_Size c <= K /\
    length outs = length (filter (fun call => is_Set call = true) calls) /\
    (K = 0 -> Forall (eq true) outs).
Proof.
  intros HK.
  destruct (run_within K calls HK _ (consistent_new K HK))
    as (c & outs & Hrun & (Hc & Hmax & Hlen) & Hall).
  exists c, outs. split; [exact Hrun|]. split; [|split; [|exact Hall]].
  - rewrite consistent_size by exact Hc. exact Hlen.
  - eapply run_outs_length, Hrun.
Qed.

(** C8 at capacity 0: three calls, the cache stays empty and both [Set]
    calls are admitted. *)
Lemma FIFOCache_Size_never_exceeds_capacity_witness :
  exists c outs,
    run [CallSet "a"; CallClear; CallSet "a"] (NewFIFOCache 0)
      = Some (c, outs) /\
    FIFOCache_Size c <= 0 /\ length outs = 2%nat.
Proof.
  destruct (FIFOCache_Size_never_exceeds_capacity 0
              [CallSet "a"; CallClear; CallSet "a"])
    as (c & outs & Hrun & Hsize & Hlen & _); [lia|].
  exists c, outs. auto.
Defined.

End CacheClaims.

(** ** Facts about the fetch loop *)

Module HLSFacts.
Import DB Cache HLS.

Create HintDb trace discriminated.

Lemma appends_ret {A} (a : A) : appends (ret a).
Proof. intros s a' s' [= _ <-]. exists []. rewrite app_nil_r. reflexivity. Qed.


Lemma appends_emit (e : Event) : appends (emit e).
Proof. intros s a s' [= _ <-]. exists [e]. reflexivity. Qed.

Lemma appends_Sleep (n : Z) : appends (Sleep n).
Proof. apply appends_emit. Qed.

Lemma appends_fetch (env : Env) (u : string) : appends (fetch env u).
Proof. intros s a s' [= _ <-]. exists [EvFetch u]. reflexivity. Qed.

Lemma appends_Now (env : Env) : appends (Now env).
Proof. intros s a s' [= _ <-]. exists []. cbn. rewrite app_nil_r. reflexivity. Qed.

Lemma appends_WriteFile (env : Env) (path : string) (data : list Z) :
  appends (WriteFile env path data).
Proof. intros s a s' [= _ <-]. exists []. cbn. rewrite app_nil_r. reflexivity. Qed.

Lemma appends_cache_Set (u : string) : appends (cache_Set u).
Proof.
  intros s a s' H. unfold cache_Set in H.
  destruct (FIFOCache_Set u (sys_cache s)) as [[c b]|]; [|discriminate].
  injection H as _ <-. exists []. cbn. rewrite app_nil_r. reflexivity.
Qed.

Lemma appends_store (item : DatabaseItem) : appends (store item).
Proof. intros s a s' [= _ <-]. exists []. cbn. rewrite app_nil_r. reflexivity. Qed.

Lemma appends_deref {A} (p : option A) : appends (deref p).
Proof.
  destruct p as [a|]; [apply appends_ret|].
  intros s a s' H. discriminate.
Qed.

#[export] Hint Resolve appends_ret appends_emit appends_Sleep appends_fetch
  appends_Now appends_WriteFile appends_cache_Set appends_store
  appends_deref : trace.


Section Net.
Context {URL : Type} {urls : UrlLib URL}.
Variable m3u8_Decode : list Z -> Decoded.
Variable env : Env.






(** Either loop body is its request followed by the rest. *)
Lemma fetchLoop_body_eq (u : URL) (s : Sys) :
  fetchLoop_body m3u8_Decode env u s
  = fetchLoop_decode m3u8_Decode env u
      (response_body (http_Do env (sys_tick s) (url_String u)))
      (after_fetch (url_String u) s).
Proof. reflexivity. Qed.

Lemma fetcher_body_eq (u : URL) (s : Sys) :
  fetcher_body m3u8_Decode env u s
  = fetcher_decode m3u8_Decode env u
      (response_body (http_Do env (sys_tick s) (url_String u)))
      (after_fetch (url_String u) s).
Proof. reflexivity. Qed.





(** On a master playlist either body goes by what [Parse] made of the
    first variant's URI: back to [start_at] with the new URL, or into the
    nil dereference. *)
Lemma fetchLoop_decode_master (u : URL) (body : list Z)
    (variant : Variant) (rest : list Variant) (s : Sys) :
  m3u8_Decode body = MASTER (variant :: rest) ->
  fetchLoop_decode m3u8_Decode env u (Some body) s
  = match url_Parse u (VariantURI variant) with
    | Some next => Some ((next, GotoStartAt), s)
    | None => None
    end.
Proof.
  intros Hdec. unfold fetchLoop_decode. rewrite Hdec. unfold bind.
  destruct (url_Parse u (VariantURI variant)); reflexivity.
Qed.

Lemma fetcher_decode_master (u : URL) (body : list Z)
    (variant : Variant) (rest : list Variant) (s : Sys) :
  m3u8_Decode body = MASTER (variant :: rest) ->
  fetcher_decode m3u8_Decode env u (Some body) s
  = match url_Parse u (VariantURI variant) with
    | Some next => Some ((next, GotoStartAt), s)
    | None => None
    end.
Proof.
  intros Hdec. unfold fetcher_decode.
  change (default [] (Some body)) with body. rewrite Hdec. unfold bind.
  destruct (url_Parse u (VariantURI variant)); reflexivity.
Qed.





End Net.

End HLSFacts.

Section FetchClaims.
Import DB Cache HLS HLSFacts.
Context {URL : Type} {urls : UrlLib URL}.
Variable m3u8_Decode : list Z -> Decoded.
Variable env : Env.


End FetchClaims.

Section FetchScenario.
Import DB Cache HLS Scenario.


End FetchScenario.

(** ** When the loops write to the bucket *)

Module HLSStoreFacts.
Import DB Cache HLS.

Section Net.
Context {URL : Type} {urls : UrlLib URL}.
Variable env : Env.

(** [processSegments] (the current binary): a turn that returns had a
    segment URI that parses; the bucket changes only by one
    [database_store] of the new item, and only when the URL was absent
    from the cache, the download returned bytes and the blob was written;
    a failed download leaves the bucket as it was. *)
Lemma processSegment_db (base : URL) (segment : MediaSegment) (s s' : Sys) :
  processSegment env base (Some segment) s = Some (tt, s') ->
  exists u,
    segment_url base segment = Some u /\
    let item := new_item segment (time_Now env (sys_tick s)) in
    (sys_db s' = sys_db s \/
     sys_db s' = snd (database_store item (sys_db s))) /\
    (sys_db s' <> sys_db s ->
       (u ∉ cache (sys_cache s)) /\
       exists data,
         response_body (http_Do env (S (sys_tick s)) u) = Some data /\
         sys_files s' !! ("./files/" +:+ Name item) = Some data) /\
    (response_body (http_Do env (S (sys_tick s)) u) = None ->
       sys_db s' = sys_db s).
Proof.
  intros H. unfold processSegment, bind in H.
  destruct (segment_fetchurl base segment) as [f|] eqn:Hf;
    cbn [deref ret nil_dereference] in H; [|discriminate].
  exists (url_String f).
  split; [unfold segment_url; rewrite Hf; reflexivity|].
  intros item. revert H. generalize (url_String f) as u. intros u.
  unfold cache_Set, FIFOCache_Set.
  destruct (decide (u ∈ cache (sys_cache s))) as [Hin|Hout].
  - cbn. intros [= <-]. cbn. split; [auto|]. split; [congruence|auto].
  - destruct (evict _) as [c'|]; [|discriminate]. cbn.
    fold item.
    destruct (response_body (http_Do env (S (sys_tick s)) u))
      as [data|] eqn:Hdl; cbn.
    + destruct (WriteFile_ok env _ _) eqn:Hw; cbn; intros [= <-]; cbn.
      * split; [auto|]. split; [|discriminate].
        intros _. split; [exact Hout|]. exists data.
        split; [reflexivity|]. apply lookup_insert_eq.
      * split; [auto|]. split; [congruence|discriminate].
    + intros [= <-]. cbn. split; [auto|]. split; [congruence|auto].
Qed.

(** [fetcher] (the older loop): an admitted URL has its record stored
    whatever the download does afterwards. *)
Lemma fetcher_segment_db (base : URL) (segment : MediaSegment) (s : Sys)
    (u : string) c :
  segment_url base segment = Some u ->
  FIFOCache_Set u (sys_cache s) = Some (c, true) ->
  exists s',
    fetcher_segment env base (Some segment) s = Some (tt, s') /\
    sys_db s' = snd (database_store
                       (new_item segment (time_Now env (sys_tick s)))
                       (sys_db s)).
Proof.
  intros Hu HS. unfold segment_url in Hu.
  destruct (segment_fetchurl base segment) as [f|] eqn:Hf;
    [|discriminate].
  cbn in Hu. injection Hu as <-.
  unfold fetcher_segment, bind, cache_Set. rewrite Hf.
  cbn [deref ret]. rewrite HS. cbn.
  destruct (response_body _); cbn; eauto.
Qed.

(** A segment URI that does not parse stops either loop. *)
Lemma segment_unparseable (base : URL) (segment : MediaSegment) (s : Sys) :
  url_Parse base (URI segment) = None ->
  processSegment env base (Some segment) s = None /\
  fetcher_segment env base (Some segment) s = None.
Proof.
  intros Hp. unfold processSegment, fetcher_segment, bind, segment_fetchurl.
  rewrite Hp. split; reflexivity.
Qed.

End Net.

End HLSStoreFacts.

Section FetchDefects.
Import Bolt DB Cache HLS Scenario.

(** C6.  [fetcher] on the one-segment media playlist while the segment
    download is refused: the URL is admitted, the download returns nil and
    no blob is written, yet the bucket holds a record for the segment,
    because [database_store] runs before [fetch].  [processSegments] in
    the same situation leaves the bucket empty. *)
Theorem fetcher_stores_before_download :
  response_body (http_Do segment_down 1 "http://cdn/seg0.ts") = None /\
  (items ∘ sys_db ∘ snd
     <$> fetcher_segment segment_down media_url (Some seg0) (initial 10))
  = Some [set_ID (arrival T0) 1] /\
  (sys_files ∘ snd
     <$> fetcher_segment segment_down media_url (Some seg0) (initial 10))
  = Some ∅ /\
  (sys_db ∘ snd
     <$> processSegment segment_down media_url (Some seg0) (initial 10))
  = Some Bolt.empty.
Proof. repeat split; vm_compute; reflexivity. Qed.

End FetchDefects.

(** ** Facts about the live manifest *)

Module ServerFacts.
Import DB Server.

Lemma segment_entries_render (items : list DatabaseItem) :
  segment_entries (render_items items)
  = map (fun item => (Len item, Name item)) items.
Proof.
  unfold render_items.
  induction items as [|item items IH]; [reflexivity|].
  cbn [flat_map app segment_entries map]. rewrite IH. reflexivity.
Qed.

(** The live handler on a non-empty tail: header, the sequence tag of the
    last item, then the items in order. *)
Lemma handleLiveStream_nonempty (db : Store) items newest :
  database_last_5 db = items ++ [newest] ->
  handleLiveStream "" db
  = Playlist ([EXTM3U; EXT_X_TARGETDURATION 2; EXT_X_VERSION 4;
               EXT_X_MEDIA_SEQUENCE (ID newest)]
              ++ render_items (items ++ [newest])).
Proof.
  intros H. unfold handleLiveStream. cbn [String.eqb negb]. rewrite H.
  rewrite length_app. cbn [length].
  destruct (Z.leb_spec (Z.of_nat (length items + 1)) 0) as [E|E]; [lia|].
  replace (length items + 1 - 1)%nat with (length items + 0)%nat by lia.
  rewrite lookup_app_r by lia.
  replace (length items + 0 - length items)%nat with O by lia.
  reflexivity.
Qed.

Lemma handleLiveStream_empty (db : Store) :
  database_last_5 db = [] ->
  handleLiveStream "" db = HttpError StatusNotFound "No segments available".
Proof. intros H. unfold handleLiveStream. cbn. rewrite H. reflexivity. Qed.

End ServerFacts.

Section ServerClaims.
Import DB Server ServerFacts Scenario.

(** C5, as amended.  The live handler answers 404 exactly when
    [database_last_5] returns no record; the records it returns are
    records of the bucket in ascending key order; and when there are
    some, the playlist has one duration/URI pair per returned record, in
    that order, with its MEDIA-SEQUENCE tag set to the [ID] of the last
    (newest) returned record. *)
Theorem handleLiveStream_manifest (db : Store) :
  (handleLiveStream "" db = HttpError StatusNotFound "No segments available"
   <-> database_last_5 db = []) /\
  sublist (database_last_5 db) (items db) /\
  (forall items newest,
     database_last_5 db = items ++ [newest] ->
     media_sequence (handleLiveStream "" db) = Some (ID newest) /\
     playlist_entries (handleLiveStream "" db)
     = map (fun item => (Len item, Name item)) (database_last_5 db)).
Proof.
  split; [|split].
  - split; [|apply handleLiveStream_empty].
    destruct (database_last_5 db) as [|x l] eqn:E using rev_ind;
      [reflexivity|].
    rewrite (handleLiveStream_nonempty db l x E). discriminate.
  - apply DBFacts.database_last_5_sublist.
  - intros items newest H.
    rewrite (handleLiveStream_nonempty db items newest H), H.
    split; [reflexivity|].
    cbn [playlist_entries app segment_entries].
    apply segment_entries_render.
Qed.

(** C5 on the three-record bucket: two entries, sequence tag 2. *)
Lemma handleLiveStream_manifest_witness :
  media_sequence (handleLiveStream "" three_segments) = Some 2 /\
  length (playlist_entries (handleLiveStream "" three_segments)) = 2%nat.
Proof.
  destruct (handleLiveStream_manifest three_segments) as (_ & _ & H).
  destruct (H [set_ID (arrival T0) 1]
              (set_ID (arrival (T0 + 1000000000)) 2)) as [Hseq Hent].
  - vm_compute. reflexivity.
  - split; [exact Hseq|]. rewrite Hent. vm_compute. reflexivity.
Defined.

(** C5 as stated fails on the three-record bucket: the tail query
    returns the records with identifiers 1 and 2, oldest first, and the
    sequence tag is 2, not the oldest record's 1. *)
Lemma handleLiveStream_sequence_counterexample :
  ~ (forall oldest rest,
       database_last_5 three_segments = oldest :: rest ->
       media_sequence (handleLiveStream "" three_segments)
       = Some (ID oldest)).
Proof.
  intros H.
  specialize (H (set_ID (arrival T0) 1)
                [set_ID (arrival (T0 + 1000000000)) 2]).
  vm_compute in H. specialize (H eq_refl). discriminate.
Qed.

(** After exactly one append the tail query is empty and the live
    handler answers 404. *)
Lemma handleLiveStream_one_segment :
  handleLiveStream "" one_segment
  = HttpError StatusNotFound "No segments available".
Proof. vm_compute. reflexivity. Qed.

End ServerClaims.


(** * Further properties of the code *)

(** ** The key encoding *)

Section KeyEncoding.
Import GoInt Bytes BytesFacts.

(** X1.  [itob] turns numeric order into [bytes.Compare] order: two keys
    compare as the [uint64] values of their arguments; on non-negative
    [int64] timestamps that is chronological order; and a negative
    timestamp is filed after every non-negative one. *)
Theorem itob_order (a b : Z) :
  Compare (itob a) (itob b) = (uint64 a ?= uint64 b) /\
  (0 <= a < two63 -> 0 <= b < two63 ->
     Compare (itob a) (itob b) = (a ?= b)) /\
  (- two63 <= a < 0 -> 0 <= b < two63 -> Compare (itob a) (itob b) = Gt).
Proof.
  split; [apply Compare_itob|]. unfold two63. split.
  - intros Ha Hb. rewrite Compare_itob.
    rewrite !uint64_small by (unfold two64; lia). reflexivity.
  - intros Ha Hb. rewrite Compare_itob.
    rewrite (uint64_small b) by (unfold two64; lia).
    replace (uint64 a) with (a + 2 ^ 64).
    + apply Z.compare_gt_iff. lia.
    + unfold uint64, two64. symmetry.
      rewrite <- (Z.mod_add a 1 (2 ^ 64)) by lia.
      apply Z.mod_small. lia.
Qed.

(** X1 at two arrival instants one second apart, and at an instant before
    1970. *)
Lemma itob_order_witness :
  Compare (itob 1700000000000000000) (itob 1700000001000000000) = Lt /\
  Compare (itob (-1)) (itob 1700000000000000000) = Gt.
Proof.
  destruct (itob_order 1700000000000000000 1700000001000000000)
    as (_ & Hpos & _).
  destruct (itob_order (-1) 1700000000000000000) as (_ & _ & Hneg).
  split.
  - rewrite Hpos; [reflexivity| |]; vm_compute; split; congruence.
  - apply Hneg; vm_compute; split; congruence.
Defined.

(** X2.  A key is eight bytes, reads back as the [uint64] value of the
    argument, and determines an [int64] timestamp uniquely. *)
Theorem itob_round_trip (a b : Z) :
  length (itob a) = 8%nat /\
  Forall is_byte (itob a) /\
  be_value (itob a) = uint64 a /\
  (in_int64 a -> in_int64 b -> itob a = itob b -> a = b).
Proof.
  split; [reflexivity|]. split; [apply itob_bytes|].
  split; [apply be_value_itob|].
  unfold in_int64, two63. intros Ha Hb H. apply itob_inj in H.
  unfold uint64, two64 in H.
  destruct (Z.neg_nonneg_cases a), (Z.neg_nonneg_cases b);
    repeat match type of H with
    | context [?x mod 2 ^ 64] =>
        first [ rewrite (Z.mod_small x) in H by lia
              | replace (x mod 2 ^ 64) with (x + 2 ^ 64) in H
                  by (rewrite <- (Z.mod_add x 1 (2 ^ 64)) by lia;
                      rewrite Z.mod_small; lia) ]
    end; lia.
Qed.

Lemma itob_round_trip_witness :
  be_value (itob (-1)) = 18446744073709551615 /\
  (itob 5 = itob 5 -> 5 = 5).
Proof.
  destruct (itob_round_trip (-1) 0) as (_ & _ & Hv & _).
  destruct (itob_round_trip 5 5) as (_ & _ & _ & Hinj).
  split; [rewrite Hv; reflexivity|].
  apply Hinj; vm_compute; split; congruence.
Defined.

End KeyEncoding.

(** ** More facts about the bucket *)

Module BucketFacts.
Import GoInt Bytes Bolt BytesFacts BoltFacts.

Section WithValues.
Context {V : Type}.
Implicit Types (es : list (list Z * V)) (k : list Z) (v : V).

Lemma length_put_absent es k v :
  k ∉ map fst es -> length (put_entries k v es) = S (length es).
Proof.
  induction es as [|[k' v'] es IH]; intros Hk; [reflexivity|].
  cbn [put_entries]. destruct (Compare k k') eqn:E; cbn [length].
  - apply Compare_eq in E. subst k'. exfalso. apply Hk. left.
  - reflexivity.
  - rewrite IH; [reflexivity|]. intros Hin. apply Hk. right. exact Hin.
Qed.

(** A key above every key of the table is appended. *)
Lemma put_entries_append es k v :
  Forall (fun e => Compare (fst e) k = Lt) es ->
  put_entries k v es = es ++ [(k, v)].
Proof.
  induction 1 as [|[k' v'] es Hlt _ IH]; [reflexivity|].
  cbn [fst] in Hlt. cbn [put_entries app].
  rewrite (Compare_antisym k' k), Hlt. cbn [CompOpp]. rewrite IH. reflexivity.
Qed.

Lemma sorted_keys_cons (k : list Z) (ks : list (list Z)) :
  (forall k', k' ∈ ks -> Compare k k' = Lt) -> sorted_keys ks ->
  sorted_keys (k :: ks).
Proof.
  intros Hall Hs. split; [|exact Hs].
  destruct ks as [|k1 ks]; [exact I|]. apply Hall. left.
Qed.

Lemma elem_of_delete es k e : e ∈ delete_entries k es -> e ∈ es.
Proof.
  induction es as [|[k' v'] es IH]; cbn [delete_entries]; [auto|].
  destruct (eq_b k k'); intros H.
  - right. exact H.
  - apply elem_of_cons in H as [->|H]; [left|right; auto].
Qed.

Lemma sorted_delete es k :
  sorted_keys (map fst es) -> sorted_keys (map fst (delete_entries k es)).
Proof.
  induction es as [|[k' v'] es IH]; intros Hs; [exact I|].
  cbn [delete_entries]. destruct (eq_b k k').
  - eapply sorted_keys_tail, Hs.
  - cbn [map fst]. apply sorted_keys_cons.
    + intros k1 Hin. apply list_elem_of_fmap in Hin as ([k2 v2] & -> & Hin).
      apply elem_of_delete in Hin.
      eapply sorted_entry_above; [exact Hs|exact Hin].
    + apply IH. eapply sorted_keys_tail, Hs.
Qed.

(** Deleting the key at the head of the table removes the head. *)
Lemma delete_entries_head es k v :
  delete_entries k ((k, v) :: es) = es.
Proof.
  cbn [delete_entries]. rewrite (proj2 (eq_b_true k k) eq_refl). reflexivity.
Qed.

Lemma get_delete_same es k :
  sorted_keys (map fst es) -> get_entries k (delete_entries k es) = None.
Proof.
  induction es as [|[k' v'] es IH]; intros Hs; [reflexivity|].
  cbn [delete_entries]. destruct (eq_b k k') eqn:E.
  - apply eq_b_true in E. subst k'.
    apply (get_entries_below es k k Hs). rewrite Compare_refl. discriminate.
  - cbn [get_entries]. rewrite E. apply IH. eapply sorted_keys_tail, Hs.
Qed.

End WithValues.

End BucketFacts.

Section StoreLookup.
Import GoInt Bytes Bolt DB BytesFacts BoltFacts BucketFacts DBFacts.

(** X3.  [database_store] of an item whose key is not yet in the bucket:
    the item gets the next sequence number, the bucket has one record
    more, the new record is found under the key of its timestamp, and every
    other key reads as before. *)
Theorem database_store_fresh (db : Store) (item : DatabaseItem) :
  itob (T item) ∉ keys db ->
  let item' := fst (database_store item db) in
  let db' := snd (database_store item db) in
  item' = set_ID item (uint64 (sequence db + 1)) /\
  sequence db' = uint64 (sequence db + 1) /\
  KeyN db' = S (KeyN db) /\
  Get (itob (T item)) db' = Some (json_Marshal item') /\
  (forall k, k <> itob (T item) -> Get k db' = Get k db).
Proof.
  intros Hfresh item' db'. subst item' db'.
  rewrite database_store_eq. cbn [fst snd]. unfold Get, KeyN.
  cbn [entries sequence].
  split; [reflexivity|]. split; [reflexivity|].
  split; [apply length_put_absent, Hfresh|].
  split; [apply get_put_same|].
  intros k Hk. apply get_put_other, Hk.
Qed.

(** X3 on the bucket holding one segment: a segment one second later. *)
Lemma database_store_fresh_witness :
  KeyN (snd (database_store (Scenario.arrival (Scenario.T0 + 1000000000))
                            Scenario.one_segment)) = 2%nat.
Proof.
  destruct (database_store_fresh Scenario.one_segment
              (Scenario.arrival (Scenario.T0 + 1000000000)))
    as (_ & _ & Hn & _).
  - vm_compute. intros H. apply list_elem_of_singleton in H. discriminate.
  - exact Hn.
Defined.

End StoreLookup.

(** ** What [encoding/json] does to a name *)

Module Utf8Facts.
Import DB Utf8.

Lemma json_string_valid (s : string) :
  forall skip, ValidString_from skip s = true -> json_string skip s = s.
Proof.
  induction s as [|c rest IH]; intros skip; [reflexivity|].
  cbn [ValidString_from json_string]. destruct skip as [|k].
  - destruct (byte_of c <? 128).
    + intros H. rewrite IH by exact H. reflexivity.
    + destruct (sequence_size _) as [n|]; [|discriminate].
      intros H. rewrite IH by exact H. reflexivity.
  - intros H. rewrite IH by exact H. reflexivity.
Qed.

(** A record with a valid name reads back as it was written. *)
Lemma json_text_valid (item : DatabaseItem) :
  ValidString (Name item) = true -> json_text item = item.
Proof.
  intros H. unfold json_text. rewrite json_string_valid by exact H.
  destruct item. reflexivity.
Qed.

Lemma ValidString_ascii (s : string) :
  ascii_only s -> ValidString s = true.
Proof.
  unfold ValidString, ascii_only. induction s as [|c rest IH]; [reflexivity|].
  cbn [list_ascii_of_string]. intros H. apply Forall_cons in H as [Hc H].
  cbn [ValidString_from]. apply Z.ltb_lt in Hc. rewrite Hc. apply IH, H.
Qed.

End Utf8Facts.

(** ** Appending in arrival order *)

Module AppendFacts.
Import GoInt Bytes Bolt DB Arrival BytesFacts BoltFacts BucketFacts DBFacts.

Lemma omap_imap {A B C} (f : B -> option C) (g : nat -> A -> B)
    (h : nat -> A -> C) (l : list A) :
  (forall i x, f (g i x) = Some (h i x)) -> omap f (imap g l) = imap h l.
Proof.
  revert g h. induction l as [|x l IH]; intros g h Hf; [reflexivity|].
  cbn [imap omap list_omap]. rewrite Hf. f_equal. apply IH.
  intros i y. apply Hf.
Qed.

Lemma map_fst_imap {A K W} (f : A -> K) (g : nat -> A -> W) (l : list A) :
  map fst (imap (fun i x => (f x, g i x)) l) = map f l.
Proof.
  revert g. induction l as [|x l IH]; intros g; [reflexivity|].
  cbn [imap map fst]. f_equal. apply (IH (fun i => g (S i))).
Qed.

Lemma store_all_entries (l : list DatabaseItem) :
  forall db : Store,
    0 <= sequence db -> sequence db + Z.of_nat (length l) < two64 ->
    StronglySorted Z.lt (map T l) -> Forall regular l ->
    (forall e item, e ∈ entries db -> item ∈ l ->
       Compare (fst e) (itob (T item)) = Lt) ->
    entries (store_all l db)
    = entries db
      ++ imap (fun i item =>
                 (itob (T item),
                  EncJSON (json_text
                             (set_ID item (sequence db + Z.of_nat (S i)))))) l /\
    sequence (store_all l db) = sequence db + Z.of_nat (length l).
Proof.
  induction l as [|item l IH]; intros db Hseq Hroom Hsorted Hreg Hbelow.
  - cbn. rewrite app_nil_r. split; [reflexivity|lia].
  - cbn [length] in Hroom. cbn [map] in Hsorted.
    apply StronglySorted_inv in Hsorted as [Hsorted Hhead].
    apply Forall_cons in Hreg as [[HT Hfin] Hreg].
    change (store_all (item :: l) db)
      with (store_all l (snd (database_store item db))).
    rewrite database_store_eq. cbn [snd].
    rewrite uint64_small by lia.
    assert (Hput : put_entries (itob (T item))
                     (json_Marshal (set_ID item (sequence db + 1)))
                     (entries db)
                   = entries db
                     ++ [(itob (T item),
                          EncJSON (json_text
                                     (set_ID item (sequence db + 1))))]).
    { rewrite put_entries_append.
      - unfold json_Marshal. cbn [Len set_ID]. rewrite Hfin. reflexivity.
      - apply Forall_forall. intros e He. apply (Hbelow e item He). left. }
    rewrite Hput.
    destruct (IH {| entries := entries db
                      ++ [(itob (T item),
                           EncJSON (json_text
                                      (set_ID item (sequence db + 1))))];
                    sequence := sequence db + 1 |}) as [He Hs];
      cbn [entries sequence]; try assumption; try lia.
    + intros e it He Hit. apply elem_of_app in He as [He|He].
      * apply (Hbelow e it He). right. exact Hit.
      * apply list_elem_of_singleton in He. subst e. cbn [fst].
        rewrite Compare_itob.
        assert (T item < T it) as Hlt.
        { rewrite Forall_forall in Hhead. apply Hhead.
          apply list_elem_of_fmap_2, Hit. }
        assert (0 <= T it < two63) as HTit.
        { rewrite Forall_forall in Hreg. apply (Hreg it Hit). }
        unfold two63 in *.
        rewrite !uint64_small by (unfold two64; lia).
        apply Z.compare_lt_iff, Hlt.
    + cbn [entries sequence] in He, Hs.
      split; [|cbn [length]; lia].
      rewrite He. cbn [imap]. rewrite <- app_assoc.
      cbn [app]. f_equal. change (Z.of_nat 1) with 1. f_equal.
      apply imap_ext. intros i it _. cbn. do 4 f_equal. lia.
Qed.

End AppendFacts.

Section AppendInOrder.
Import GoInt Bytes Bolt DB Arrival Utf8Facts AppendFacts.

(** X4.  Appending, to the empty bucket, records with strictly increasing
    timestamps (after 1970, finite durations): the bucket then holds one
    record for each, in insertion order, numbered 1, 2, ... by
    [NextSequence], under the keys of their timestamps.  Each reads back
    as its JSON text gives it, that is with every byte of the name
    outside a well-formed UTF-8 sequence replaced by U+FFFD; the records
    read back are exactly the ones appended when every name is valid
    UTF-8. *)
Theorem store_all_increasing (l : list DatabaseItem) :
  StronglySorted Z.lt (map T l) -> Forall regular l ->
  Z.of_nat (length l) < two64 ->
  items (store_all l Bolt.empty)
  = imap (fun i item => json_text (set_ID item (Z.of_nat i + 1))) l /\
  (Forall (fun item => Utf8.ValidString (Name item) = true) l ->
   items (store_all l Bolt.empty)
   = imap (fun i item => set_ID item (Z.of_nat i + 1)) l) /\
  keys (store_all l Bolt.empty) = map (fun item => itob (T item)) l /\
  sequence (store_all l Bolt.empty) = Z.of_nat (length l).
Proof.
  intros Hsorted Hreg Hlen.
  destruct (store_all_entries l Bolt.empty) as [He Hs];
    cbn [sequence entries Bolt.empty]; try assumption; try lia.
  { intros e item He. inversion He. }
  cbn [Bolt.empty entries sequence app] in He, Hs.
  assert (Hitems : items (store_all l Bolt.empty)
            = imap (fun i item => json_text (set_ID item (Z.of_nat i + 1))) l).
  { unfold items. rewrite He. apply omap_imap.
    intros i item. cbn [snd json_Unmarshal]. do 3 f_equal. lia. }
  split; [exact Hitems|]. split; [|split; [|lia]].
  - intros Hvalid. rewrite Hitems. apply imap_ext. intros i item Hi.
    apply json_text_valid. cbn [Name set_ID].
    rewrite Forall_forall in Hvalid. apply Hvalid.
    apply (list_elem_of_lookup_2 _ _ _ Hi).
  - unfold keys. rewrite He.
    apply (map_fst_imap (fun item => itob (T item))
             (fun i item =>
                EncJSON (json_text (set_ID item (0 + Z.of_nat (S i)))))).
Qed.

(** X4 on two arrivals, the second under a name that opens with the byte
    FF: it reads back under a name that opens with EF BF BD. *)
Lemma store_all_increasing_witness :
  let odd := {| ID := 0; Name := String "255" ".ts";
                Len := Scenario.two_seconds;
                T := Scenario.T0 + 1000000000 |} in
  map (fun item => (ID item, Utf8.bytes (Name item)))
      (items (store_all [Scenario.arrival Scenario.T0; odd] Bolt.empty))
  = [(1, Utf8.bytes "1700000000000000000.ts");
     (2, [239; 191; 189; 46; 116; 115])] /\
  items (store_all [Scenario.arrival Scenario.T0] Bolt.empty)
  = [set_ID (Scenario.arrival Scenario.T0) 1].
Proof.
  intros odd. split.
  - destruct (store_all_increasing [Scenario.arrival Scenario.T0; odd])
      as (Hitems & _ & _ & _).
    + repeat constructor.
    + repeat constructor; vm_compute; congruence.
    + vm_compute. reflexivity.
    + rewrite Hitems. vm_compute. reflexivity.
  - destruct (store_all_increasing [Scenario.arrival Scenario.T0])
      as (_ & Hvalid & _ & _).
    + repeat constructor.
    + repeat constructor; vm_compute; congruence.
    + vm_compute. reflexivity.
    + rewrite Hvalid; [reflexivity|].
      repeat constructor.
Defined.

End AppendInOrder.

(** ** The sweep of [database_worker], in general *)

Module SweepFacts.
Import GoInt Bytes Bolt DB Arrival BytesFacts BoltFacts BucketFacts DBFacts.

(** In a sorted run of entries whose first key is not below the bound, no
    key is. *)
Lemma sorted_not_below (bound : list Z) (es : list (list Z * Encoded)) k v :
  sorted_keys (map fst ((k, v) :: es)) -> Compare k bound <> Lt ->
  Forall (fun e => Compare (fst e) bound <> Lt) ((k, v) :: es).
Proof.
  intros Hs Hk. constructor; [exact Hk|].
  apply Forall_forall. intros [k' v'] Hin. cbn [fst].
  apply (Compare_not_lt_mono k k' bound Hk).
  eapply sorted_entry_above; eauto.
Qed.

(** A scan that meets no key below the cutoff and no undecodable value
    deletes every entry and hands every blob to [os.RemoveAll]. *)
Lemma worker_scan_decodable (cur : list Z) (es : list (list Z * Encoded)) :
  forall (db : Store) (removed : list string),
    entries db = es ->
    Forall (fun e => Compare (fst e) cur <> Lt) es ->
    Forall (fun e => is_Some (json_Unmarshal (snd e))) es ->
    worker_scan cur es db removed
    = (Some {| entries := []; sequence := sequence db |},
       removed ++ map Name (omap (fun e => json_Unmarshal (snd e)) es)).
Proof.
  induction es as [|[k v] es IH]; intros db removed He Hge Hdec.
  - cbn. rewrite app_nil_r. destruct db. cbn in He. subst. reflexivity.
  - apply Forall_cons in Hge as [Hk Hge]. apply Forall_cons in Hdec as [[item Hv] Hdec].
    cbn [fst snd] in Hk, Hv. cbn [worker_scan omap list_omap snd].
    rewrite Hv. cbn [map].
    assert (entries (Delete k db) = es) as Hd.
    { unfold Delete. cbn [entries]. rewrite He. apply delete_entries_head. }
    destruct (Compare k cur) eqn:E; try congruence;
      rewrite (IH (Delete k db) (removed ++ [Name item]) Hd Hge Hdec);
      rewrite <- app_assoc; reflexivity.
Qed.

(** A scan that meets no key below the cutoff ends either in an error or
    with the bucket emptied. *)
Lemma worker_scan_outcome (cur : list Z) (es : list (list Z * Encoded)) :
  forall (db db' : Store) (removed removed' : list string),
    entries db = es ->
    Forall (fun e => Compare (fst e) cur <> Lt) es ->
    worker_scan cur es db removed = (Some db', removed') ->
    db' = {| entries := []; sequence := sequence db |}.
Proof.
  induction es as [|[k v] es IH]; intros db db' removed removed' He Hge H.
  - cbn in H. injection H as <- _. destruct db. cbn in He. subst. reflexivity.
  - apply Forall_cons in Hge as [Hk Hge]. cbn [fst] in Hk.
    cbn [worker_scan] in H.
    assert (entries (Delete k db) = es) as Hd.
    { unfold Delete. cbn [entries]. rewrite He. apply delete_entries_head. }
    destruct (Compare k cur) eqn:E; try congruence;
      destruct (json_Unmarshal v); try discriminate;
      apply (IH _ _ _ _ Hd Hge) in H; exact H.
Qed.

(** A scan that meets an undecodable value, after decodable ones and no
    key below the cutoff, returns the error. *)
Lemma worker_scan_undecodable (cur : list Z)
    (pre : list (list Z * Encoded)) k post :
  forall (db : Store) (removed : list string),
    entries db = pre ++ (k, EncEmpty) :: post ->
    Forall (fun e => Compare (fst e) cur <> Lt) (pre ++ [(k, EncEmpty)]) ->
    Forall (fun e => is_Some (json_Unmarshal (snd e))) pre ->
    worker_scan cur (pre ++ (k, EncEmpty) :: post) db removed
    = (None,
       removed ++ map Name (omap (fun e => json_Unmarshal (snd e)) pre)).
Proof.
  induction pre as [|[k1 v1] pre IH]; intros db removed He Hge Hdec.
  - cbn [app] in *. apply Forall_cons in Hge as [Hk _]. cbn [fst] in Hk.
    cbn. rewrite app_nil_r.
    destruct (Compare k cur); try congruence; reflexivity.
  - cbn [app] in *. apply Forall_cons in Hge as [Hk Hge].
    apply Forall_cons in Hdec as [[item Hv] Hdec]. cbn [fst snd] in Hk, Hv.
    cbn [worker_scan omap list_omap snd]. rewrite Hv. cbn [map].
    assert (entries (Delete k1 db) = pre ++ (k, EncEmpty) :: post) as Hd.
    { unfold Delete. cbn [entries]. rewrite He. apply delete_entries_head. }
    destruct (Compare k1 cur) eqn:E; try congruence;
      rewrite (IH (Delete k1 db) (removed ++ [Name item]) Hd Hge Hdec);
      rewrite <- app_assoc; reflexivity.
Qed.

Lemma database_sweep_empty (current : Z) (db : Store) :
  entries db = [] ->
  database_sweep current db
  = {| sweep_db := db; sweep_removed := []; sweep_err := false |}.
Proof.
  intros He. unfold database_sweep, scan_forward. rewrite He. reflexivity.
Qed.

(** Modular arithmetic of [int64]. *)
Lemma int64_congr (a : Z) : exists q, int64 a = a + q * two64.
Proof.
  unfold int64, two64, two63.
  exists (- ((a + 2 ^ 63) / 2 ^ 64)).
  pose proof (Z.div_mod (a + 2 ^ 63) (2 ^ 64)). lia.
Qed.

Lemma int64_mul_l (a b : Z) : int64 (int64 a * b) = int64 (a * b).
Proof.
  destruct (int64_congr a) as [q ->]. unfold int64.
  replace ((a + q * two64) * b + two63) with (a * b + two63 + (q * b) * two64)
    by ring.
  rewrite Z.mod_add by (unfold two64; lia). reflexivity.
Qed.

Lemma int64_sub_r (a b : Z) : int64 (a - int64 b) = int64 (a - b).
Proof.
  destruct (int64_congr b) as [q ->]. unfold int64.
  replace (a - (b + q * two64) + two63) with (a - b + two63 + (- q) * two64)
    by ring.
  rewrite Z.mod_add by (unfold two64; lia). reflexivity.
Qed.

Lemma int64_sub_mul_r (a b c : Z) :
  int64 (a - int64 b * c) = int64 (a - b * c).
Proof.
  destruct (int64_congr b) as [q ->]. unfold int64.
  replace (a - (b + q * two64) * c + two63)
    with (a - b * c + two63 + (- q * c) * two64) by ring.
  rewrite Z.mod_add by (unfold two64; lia). reflexivity.
Qed.

End SweepFacts.

Section SweepProperties.
Import GoInt Bytes Bolt DB Arrival BytesFacts BoltFacts DBFacts SweepFacts.

(** X5.  One sweep over a bucket with sorted keys and decodable values is
    all or nothing: when the bucket is empty or its oldest key is below
    the cutoff nothing happens; otherwise every record is deleted and
    every blob name handed to [os.RemoveAll], in key order.  The sequence
    counter is untouched either way. *)
Theorem database_sweep_all_or_nothing (current : Z) (db : Store) :
  well_formed db -> decodable db ->
  database_sweep current db
  = match entries db with
    | [] => {| sweep_db := db; sweep_removed := []; sweep_err := false |}
    | (k, _) :: _ =>
        if lt_b k (itob current)
        then {| sweep_db := db; sweep_removed := []; sweep_err := false |}
        else {| sweep_db := {| entries := []; sequence := sequence db |};
                sweep_removed := map Name (items db);
                sweep_err := false |}
    end.
Proof.
  intros Hwf Hdec. destruct (entries db) as [|[k v] es] eqn:He.
  - apply database_sweep_empty, He.
  - unfold lt_b. destruct (Compare k (itob current)) eqn:E.
    + unfold database_sweep, scan_forward, items.
      rewrite (worker_scan_decodable (itob current) (entries db) db [] eq_refl).
      * reflexivity.
      * rewrite He. apply (sorted_not_below _ es k v); [|congruence].
        unfold well_formed, keys in Hwf. rewrite He in Hwf. exact Hwf.
      * exact Hdec.
    + eapply database_sweep_oldest_below; eauto.
    + unfold database_sweep, scan_forward, items.
      rewrite (worker_scan_decodable (itob current) (entries db) db [] eq_refl).
      * reflexivity.
      * rewrite He. apply (sorted_not_below _ es k v); [|congruence].
        unfold well_formed, keys in Hwf. rewrite He in Hwf. exact Hwf.
      * exact Hdec.
Qed.

(** X5 on the three-record bucket, cutoff before the oldest record. *)
Lemma database_sweep_all_or_nothing_witness :
  sweep_removed (database_sweep (Scenario.T0 - 1) Scenario.three_segments)
  = ["1700000000000000000.ts"; "1700000001000000000.ts";
     "1700000002000000000.ts"]%string.
Proof.
  rewrite (database_sweep_all_or_nothing (Scenario.T0 - 1)
             Scenario.three_segments).
  - vm_compute. reflexivity.
  - vm_compute. tauto.
  - repeat constructor; eexists; reflexivity.
Defined.

(** With the oldest key not below the cutoff a sweep either fails and
    rolls back, or empties the bucket. *)
Lemma database_sweep_not_below (current : Z) (db : Store) k v es :
  well_formed db -> entries db = (k, v) :: es ->
  Compare k (itob current) <> Lt ->
  (sweep_db (database_sweep current db) = db /\
   sweep_err (database_sweep current db) = true) \/
  (sweep_db (database_sweep current db)
   = {| entries := []; sequence := sequence db |} /\
   sweep_err (database_sweep current db) = false).
Proof.
  intros Hwf He Hk. unfold database_sweep, scan_forward.
  destruct (worker_scan (itob current) (entries db) db [])
    as [[db'|] removed] eqn:Hscan; cbn [sweep_db sweep_err]; [right|left; auto].
  apply worker_scan_outcome in Hscan; [auto|reflexivity|].
  rewrite He. apply (sorted_not_below _ es k v); [|exact Hk].
  unfold well_formed, keys in Hwf. rewrite He in Hwf. exact Hwf.
Qed.

(** X6.  On a bucket with sorted keys a second sweep with the same cutoff
    leaves the bucket as the first one left it, and after a first sweep
    without error the second removes no blob. *)
Theorem database_sweep_idempotent (current : Z) (db : Store) :
  well_formed db ->
  let first := database_sweep current db in
  let second := database_sweep current (sweep_db first) in
  sweep_db second = sweep_db first /\
  (sweep_err first = false -> sweep_removed second = []).
Proof.
  intros Hwf first second. subst first second.
  destruct (entries db) as [|[k v] es] eqn:He.
  - rewrite (database_sweep_empty current db He). cbn [sweep_db sweep_err].
    rewrite (database_sweep_empty current db He). auto.
  - assert (Compare k (itob current) = Lt \/ Compare k (itob current) <> Lt)
      as [E|E]
      by (destruct (Compare k (itob current)); [right|left|right]; congruence).
    + rewrite (database_sweep_oldest_below current db k v es He E).
      cbn [sweep_db sweep_err].
      rewrite (database_sweep_oldest_below current db k v es He E). auto.
    + destruct (database_sweep_not_below current db k v es Hwf He E)
        as [[Hdb Herr]|[Hdb Herr]].
      * rewrite Herr. split; [|discriminate]. rewrite Hdb. exact Hdb.
      * rewrite Hdb. rewrite database_sweep_empty by reflexivity.
        cbn [sweep_db sweep_removed]. auto.
Qed.

Lemma database_sweep_idempotent_witness :
  sweep_db (database_sweep (Scenario.T0 - 1)
              (sweep_db (database_sweep (Scenario.T0 - 1)
                           Scenario.three_segments)))
  = {| entries := []; sequence := 3 |}.
Proof.
  destruct (database_sweep_idempotent (Scenario.T0 - 1)
              Scenario.three_segments) as [H _].
  - vm_compute. tauto.
  - cbv zeta in H. rewrite H. vm_compute. reflexivity.
Defined.

(** X7.  When a sweep that meets no key below the cutoff reaches a value
    that does not decode, the transaction returns the error and the bucket
    is rolled back to what it was, while the blobs of the records scanned
    before it have already been handed to [os.RemoveAll]. *)
Theorem database_sweep_rollback (current : Z) (db : Store)
    (pre : list (list Z * Encoded)) (k : list Z)
    (post : list (list Z * Encoded)) :
  entries db = pre ++ (k, EncEmpty) :: post ->
  Forall (fun e => Compare (fst e) (itob current) <> Lt)
         (pre ++ [(k, EncEmpty)]) ->
  Forall (fun e => is_Some (json_Unmarshal (snd e))) pre ->
  database_sweep current db
  = {| sweep_db := db;
       sweep_removed :=
         map Name (omap (fun e => json_Unmarshal (snd e)) pre);
       sweep_err := true |}.
Proof.
  intros He Hge Hdec. unfold database_sweep, scan_forward. rewrite He.
  rewrite (worker_scan_undecodable (itob current) pre k post db [] He Hge Hdec).
  reflexivity.
Qed.

End SweepProperties.

Section SweepScenario.
Import GoInt Bytes Bolt DB Scenario.

(** X7 on a bucket whose second record was stored with a NaN duration
    (bit pattern 0x7FF8000000000000): the sweep removes the first blob,
    fails on the second record and keeps both records. *)
Lemma database_sweep_rollback_witness :
  let db := store_all [arrival T0;
                       {| ID := 0; Name := "nan.ts";
                          Len := 9221120237041090560;
                          T := T0 + 1000000000 |}] Bolt.empty in
  KeyN (sweep_db (database_sweep (T0 - 1) db)) = 2%nat /\
  sweep_removed (database_sweep (T0 - 1) db)
  = ["1700000000000000000.ts"%string] /\
  sweep_err (database_sweep (T0 - 1) db) = true.
Proof.
  intros db.
  rewrite (database_sweep_rollback (T0 - 1) db
             [(itob T0, EncJSON (set_ID (arrival T0) 1))]
             (itob (T0 + 1000000000)) []).
  - repeat split; vm_compute; reflexivity.
  - vm_compute. reflexivity.
  - repeat constructor; vm_compute; congruence.
  - repeat constructor. eexists. reflexivity.
Defined.

End SweepScenario.

Section CutoffProperties.
Import GoInt DB SweepFacts BytesFacts.

(** X8.  The cutoff of [database_worker] is [now] minus [flagTail * 3600],
    computed in 64-bit arithmetic: whatever the intermediate products do,
    the result is that difference wrapped to [int64], and the difference
    itself when it fits. *)
Theorem worker_current_value (now flagTail : Z) :
  worker_current now flagTail = int64 (now - flagTail * 3600) /\
  (in_int64 (now - flagTail * 3600) ->
   worker_current now flagTail = now - flagTail * 3600).
Proof.
  assert (worker_current now flagTail = int64 (now - flagTail * 3600)) as H.
  { unfold worker_current, time_Nanosecond.
    rewrite Z.mul_1_r, !int64_sub_r, int64_sub_mul_r.
    f_equal. ring. }
  split; [exact H|]. intros Hr. rewrite H. apply int64_small, Hr.
Qed.

Lemma worker_current_value_witness :
  worker_current 1700000000000000000 48 = 1700000000000000000 - 172800.
Proof.
  destruct (worker_current_value 1700000000000000000 48) as [_ H].
  rewrite H; [reflexivity|]. vm_compute. split; congruence.
Defined.

End CutoffProperties.

(** ** The two queries, in general *)

Module QueryFacts.
Import GoInt Bytes Bolt DB Arrival BytesFacts BoltFacts DBFacts SweepFacts.

Lemma last_5_scan_bound (es : list (list Z * Encoded)) :
  forall (n : Z) (tmp : list DatabaseItem),
    0 <= n <= 7 ->
    (length (last_5_scan es n tmp) <= length tmp + Z.to_nat (7 - n))%nat.
Proof.
  induction es as [|[k v] es IH]; intros n tmp Hn; cbn [last_5_scan]; [lia|].
  destruct (Z.geb_spec n 7) as [_|Hlt]; [lia|].
  destruct (json_Unmarshal v).
  - specialize (IH (n + 1) (tmp ++ [d])). rewrite length_app in IH.
    cbn [length] in IH. lia.
  - specialize (IH (n + 1) tmp). lia.
Qed.

Lemma last_5_scan_decodable (es : list (list Z * Encoded)) :
  forall (n : Z) (tmp : list DatabaseItem),
    0 <= n <= 7 ->
    Forall (fun e => is_Some (json_Unmarshal (snd e))) es ->
    last_5_scan es n tmp
    = tmp ++ take (Z.to_nat (7 - n))
               (omap (fun e => json_Unmarshal (snd e)) es).
Proof.
  induction es as [|[k v] es IH]; intros n tmp Hn Hdec.
  - cbn. rewrite take_nil, app_nil_r. reflexivity.
  - apply Forall_cons in Hdec as [[item Hv] Hdec]. cbn [snd] in Hv.
    cbn [last_5_scan omap list_omap snd]. rewrite Hv.
    destruct (Z.geb_spec n 7) as [Hge|Hlt].
    + replace (Z.to_nat (7 - n)) with O by lia.
      cbn. rewrite app_nil_r. reflexivity.
    + rewrite IH by (auto; lia).
      replace (Z.to_nat (7 - n)) with (S (Z.to_nat (7 - (n + 1)))) by lia.
      cbn [take]. rewrite <- app_assoc. reflexivity.
Qed.

(** In a sorted table [Seek] lands on the entries whose key is not below
    the sought one. *)
Lemma seek_not_below (k : list Z) (es : list (list Z * Encoded)) :
  sorted_keys (map fst es) ->
  Forall (fun e => Compare (fst e) k <> Lt) (seek_entries k es).
Proof.
  induction es as [|[k' v'] es IH]; intros Hs; [constructor|].
  cbn [seek_entries]. unfold lt_b.
  destruct (Compare k' k) eqn:E.
  - apply (sorted_not_below k es k' v' Hs). congruence.
  - apply IH. eapply sorted_keys_tail, Hs.
  - apply (sorted_not_below k es k' v' Hs). congruence.
Qed.

Lemma filter_all {A} (P : A -> Prop) `{forall x, Decision (P x)} (l : list A) :
  Forall P l -> filter P l = l.
Proof.
  induction 1 as [|x l Hx _ IH]; [reflexivity|].
  rewrite filter_cons_True by exact Hx. f_equal. exact IH.
Qed.

Lemma lt_b_false (a b : list Z) : lt_b a b = false <-> Compare a b <> Lt.
Proof. unfold lt_b. destruct (Compare a b); split; congruence. Qed.

Lemma seek_filter (k : list Z) (es : list (list Z * Encoded)) :
  sorted_keys (map fst es) ->
  seek_entries k es = filter (fun e => lt_b (fst e) k = false) es.
Proof.
  induction es as [|[k' v'] es IH]; intros Hs; [reflexivity|].
  cbn [seek_entries]. destruct (lt_b k' k) eqn:E.
  - rewrite filter_cons_False by (cbn [fst]; congruence).
    apply IH. eapply sorted_keys_tail, Hs.
  - symmetry. apply filter_all.
    eapply Forall_impl; [apply (sorted_not_below k es k' v' Hs)|].
    + apply lt_b_false, E.
    + intros e He. apply lt_b_false, He.
Qed.

(** A key not below [start] is not below an [end_] that is not above
    [start]. *)
Lemma not_below_weaken (k start end_ : list Z) :
  Compare k start <> Lt -> Compare end_ start <> Gt -> Compare k end_ <> Lt.
Proof.
  intros Hk He Hlt. apply Hk.
  destruct (Compare end_ start) eqn:E; [| |congruence].
  - apply Compare_eq in E. subst. exact Hlt.
  - eapply Compare_lt_trans; eauto.
Qed.

End QueryFacts.

Section QueryProperties.
Import GoInt Bytes Bolt DB Arrival BytesFacts BoltFacts DBFacts SweepFacts
       QueryFacts.

(** X9.  [database_last_5] never returns more than six records; on a
    bucket whose values all decode it returns, oldest first, the seven
    newest records without the newest one. *)
Theorem database_last_5_window (db : Store) :
  (length (database_last_5 db) <= 6)%nat /\
  (decodable db ->
   database_last_5 db = rev (tail (take 7 (rev (items db))))).
Proof.
  rewrite database_last_5_eq. split.
  - rewrite length_rev.
    pose proof (last_5_scan_bound (scan_backward db) 0 []) as H.
    cbn [length] in H.
    destruct (last_5_scan (scan_backward db) 0 []); cbn [tail length] in *; lia.
  - intros Hdec. unfold scan_backward, items.
    rewrite last_5_scan_decodable; [|lia|apply Forall_rev, Hdec].
    cbn [app]. rewrite omap_rev. reflexivity.
Qed.

Lemma database_last_5_window_witness :
  map ID (database_last_5 Scenario.three_segments) = [1; 2].
Proof.
  destruct (database_last_5_window Scenario.three_segments) as [_ H].
  rewrite H.
  - vm_compute. reflexivity.
  - repeat constructor; eexists; reflexivity.
Defined.

(** X10.  [database_get] for a start [si] (Unix seconds) and a duration
    [li] (minutes) with [si + li * 60e9 <= si * 1e9 < 2^63], which holds
    for every present-day Unix time and every duration up to years: on a
    bucket with sorted keys it returns every decodable record whose key is
    not below that of [si * 1e9], to the end of the bucket; the duration
    has no effect. *)
Theorem database_get_from_start (si li : Z) (db : Store) :
  well_formed db -> 0 <= si -> 0 <= li ->
  si * 1000000000 < two63 ->
  si + li * 60000000000 <= si * 1000000000 ->
  database_get_int si li db
  = omap (fun e => json_Unmarshal (snd e))
         (filter (fun e => lt_b (fst e) (itob (si * 1000000000)) = false)
                 (entries db)).
Proof.
  intros Hwf Hsi Hli Hs He. unfold database_get_int, two63 in *.
  assert (forall v, 0 <= v < 2 ^ 63 -> int64 v = v) as small
    by (intros v Hv; apply int64_small; unfold in_int64, two63; lia).
  rewrite (small (si * 1000000000)) by lia.
  rewrite (small (li * 60)) by lia.
  rewrite (small (li * 60 * 1000000000)) by lia.
  rewrite (small (si + li * 60 * 1000000000)) by lia.
  rewrite <- seek_filter by exact Hwf.
  apply (get_scan_all _ _ []).
  eapply Forall_impl; [apply seek_not_below, Hwf|].
  intros e Hk. cbn beta in Hk. eapply not_below_weaken; [exact Hk|].
  rewrite Compare_itob.
  rewrite !uint64_small by (unfold two64; lia).
  intros Hgt. apply Z.compare_gt_iff in Hgt. lia.
Qed.

(** X10 at the default of the live route ([limit = "300"]) on the
    three-record bucket: all three records, whose span is two seconds. *)
Lemma database_get_from_start_witness :
  map ID (database_get_int 1700000000 300 Scenario.three_segments)
  = [1; 2; 3].
Proof.
  rewrite (database_get_from_start 1700000000 300 Scenario.three_segments).
  - vm_compute. reflexivity.
  - vm_compute. tauto.
  - lia.
  - lia.
  - vm_compute. reflexivity.
  - vm_compute. congruence.
Defined.

End QueryProperties.

(** ** The database file *)

Module FileFacts.
Import GoInt Bytes Bolt DB Arrival DBFile BytesFacts BoltFacts BucketFacts
       DBFacts SweepFacts.

Lemma store_inv_Delete (k : list Z) (db : Store) :
  store_inv db -> store_inv (Delete k db).
Proof.
  intros (Hwf & Hseq & Hrec). split; [|split]; cbn [Delete sequence entries].
  - unfold well_formed, keys. cbn [entries]. apply sorted_delete, Hwf.
  - exact Hseq.
  - intros k' item Hin. apply elem_of_delete in Hin. apply Hrec, Hin.
Qed.

Lemma sequence_Delete (k : list Z) (db : Store) :
  sequence (Delete k db) = sequence db.
Proof. reflexivity. Qed.

Lemma worker_scan_inv (cur : list Z) (es : list (list Z * Encoded)) :
  forall (db db' : Store) (removed removed' : list string),
    store_inv db ->
    worker_scan cur es db removed = (Some db', removed') ->
    store_inv db' /\ sequence db' = sequence db.
Proof.
  induction es as [|[k v] es IH]; intros db db' removed removed' Hinv H.
  - cbn in H. injection H as <- _. auto.
  - cbn [worker_scan] in H.
    destruct (Compare k cur);
      try (destruct (json_Unmarshal v); [|discriminate];
           apply IH in H; [|apply store_inv_Delete, Hinv];
           rewrite sequence_Delete in H; exact H).
    injection H as <- _. auto.
Qed.

(** A sweep keeps the invariant and the counter. *)
Lemma store_inv_sweep (current : Z) (db : Store) :
  store_inv db ->
  store_inv (sweep_db (database_sweep current db)) /\
  sequence (sweep_db (database_sweep current db)) = sequence db.
Proof.
  intros Hinv. unfold database_sweep.
  destruct (worker_scan (itob current) (scan_forward db) db [])
    as [[db'|] removed] eqn:H; cbn [sweep_db]; [|auto].
  eapply worker_scan_inv; eauto.
Qed.

Lemma database_store_sequence (item : DatabaseItem) (db : Store) :
  sequence (snd (database_store item db)) = uint64 (sequence db + 1).
Proof. reflexivity. Qed.

Lemma run_writes_store (item : DatabaseItem) (ws : list Write)
    (d : Database) (b : Store) :
  buckets d !! dbbucket = Some b ->
  run_writes (WriteStore item :: ws) d
  = run_writes ws
      {| buckets := <[dbbucket := snd (database_store item b)]> (buckets d) |}.
Proof.
  intros Hb. cbn [run_writes]. unfold file_store. rewrite Hb.
  cbn [mbind option_bind]. destruct (database_store item b); reflexivity.
Qed.

Lemma run_writes_sweep (now flagTail : Z) (ws : list Write)
    (d : Database) (b : Store) :
  buckets d !! dbbucket = Some b ->
  run_writes (WriteSweep now flagTail :: ws) d
  = run_writes ws
      {| buckets := <[dbbucket :=
                        sweep_db (database_worker_step now flagTail b)]>
                      (buckets d) |}.
Proof.
  intros Hb. cbn [run_writes]. unfold file_worker_step. rewrite Hb.
  reflexivity.
Qed.

(** Writers only ever touch the bucket "main": they run without panic on
    a file that has it, keep its invariant, advance its counter by the
    number of stores, and leave every other bucket name as it was. *)
Lemma run_writes_main (ws : list Write) :
  forall (d : Database) (b : Store),
    buckets d !! dbbucket = Some b -> store_inv b ->
    sequence b + Z.of_nat (stores ws) < two64 ->
    exists d' b',
      run_writes ws d = Some d' /\
      buckets d' !! dbbucket = Some b' /\ store_inv b' /\
      sequence b' = sequence b + Z.of_nat (stores ws) /\
      (forall name, name <> dbbucket ->
         buckets d' !! name = buckets d !! name).
Proof.
  unfold stores.
  induction ws as [|[item|now flagTail] ws IH]; intros d b Hb Hinv Hroom.
  - exists d, b. cbn. split; [reflexivity|]. split; [exact Hb|].
    split; [exact Hinv|]. split; [lia|auto].
  - rewrite filter_cons_True in Hroom by reflexivity. cbn [length] in Hroom.
    rewrite (run_writes_store item ws d b Hb).
    pose proof (proj1 (proj2 Hinv)) as Hseq.
    destruct (IH {| buckets := <[dbbucket := snd (database_store item b)]>
                                 (buckets d) |}
                 (snd (database_store item b)))
      as (d' & b' & Hrun & Hb' & Hinv' & Hs' & Hother).
    + cbn [buckets]. apply lookup_insert_eq.
    + apply store_inv_database_store; [exact Hinv|lia].
    + rewrite database_store_sequence, uint64_small by lia. lia.
    + exists d', b'. split; [exact Hrun|]. split; [exact Hb'|].
      split; [exact Hinv'|]. split.
      * rewrite Hs', database_store_sequence, uint64_small by lia.
        rewrite filter_cons_True by reflexivity. cbn [length]. lia.
      * intros name Hn. rewrite (Hother name Hn). cbn [buckets].
        apply lookup_insert_ne. congruence.
  - rewrite filter_cons_False in Hroom by discriminate.
    rewrite (run_writes_sweep now flagTail ws d b Hb).
    destruct (store_inv_sweep (worker_current now flagTail) b Hinv)
      as [Hinv1 Hs1].
    destruct (IH {| buckets := <[dbbucket :=
                       sweep_db (database_worker_step now flagTail b)]>
                       (buckets d) |}
                 (sweep_db (database_worker_step now flagTail b)))
      as (d' & b' & Hrun & Hb' & Hinv' & Hs' & Hother).
    + cbn [buckets]. apply lookup_insert_eq.
    + exact Hinv1.
    + unfold database_worker_step. rewrite Hs1. exact Hroom.
    + exists d', b'. split; [exact Hrun|]. split; [exact Hb'|].
      split; [exact Hinv'|]. split.
      * rewrite Hs'. unfold database_worker_step. rewrite Hs1.
        rewrite filter_cons_False by discriminate. reflexivity.
      * intros name Hn. rewrite (Hother name Hn). cbn [buckets].
        apply lookup_insert_ne. congruence.
Qed.

Lemma database_init_main (d : Database) :
  is_Some (buckets (database_init d) !! dbbucket).
Proof.
  unfold database_init, CreateBucketIfNotExists.
  destruct (buckets d !! dbbucket) eqn:E; cbn.
  - rewrite E. eauto.
  - rewrite lookup_insert_eq. eauto.
Qed.

Lemma database_init_other (d : Database) (name : string) :
  name <> dbbucket ->
  buckets (database_init d) !! name = buckets d !! name.
Proof.
  intros Hn. unfold database_init, CreateBucketIfNotExists.
  destruct (buckets d !! dbbucket); cbn; [reflexivity|].
  apply lookup_insert_ne. congruence.
Qed.

End FileFacts.

Module FileFacts2.
Import Bolt DB DBFile.

(** Whatever the writers do, they do it to the bucket "main". *)
Lemma run_writes_other (ws : list Write) :
  forall (d d' : Database) (name : string),
    run_writes ws d = Some d' -> name <> dbbucket ->
    buckets d' !! name = buckets d !! name.
Proof.
  induction ws as [|[item|now flagTail] ws IH]; intros d d' name Hrun Hn.
  - injection Hrun as <-. reflexivity.
  - cbn [run_writes] in Hrun. unfold file_store in Hrun.
    destruct (buckets d !! dbbucket) as [b|]; [|discriminate].
    cbn [mbind option_bind] in Hrun.
    destruct (database_store item b) as [item' b1].
    cbn [mbind option_bind snd] in Hrun.
    rewrite (IH _ _ name Hrun Hn). cbn [buckets].
    apply lookup_insert_ne. congruence.
  - cbn [run_writes] in Hrun. unfold file_worker_step in Hrun.
    destruct (buckets d !! dbbucket) as [b|]; [|discriminate].
    cbn [mbind option_bind snd] in Hrun.
    rewrite (IH _ _ name Hrun Hn). cbn [buckets].
    apply lookup_insert_ne. congruence.
Qed.

End FileFacts2.

Section FileProperties.
Import GoInt Bytes Bolt DB Arrival DBFile DBFacts FileFacts FileFacts2.

(** X11.  From a freshly initialised file every sequence of stores and
    sweeps runs without panic and keeps the bucket "main" in order: keys
    strictly ascending, every record filed under the key of its own
    timestamp with an identifier between 1 and the counter, no two records
    with one timestamp, and the counter equal to the number of stores made
    so far, swept records included: an identifier is never issued twice. *)
Theorem run_writes_invariant (ws : list Write) :
  Z.of_nat (stores ws) < two64 ->
  exists d b,
    run_writes ws (database_init fresh) = Some d /\
    buckets d !! dbbucket = Some b /\
    store_inv b /\
    NoDup (map T (items b)) /\
    sequence b = Z.of_nat (stores ws).
Proof.
  intros Hroom.
  destruct (run_writes_main ws (database_init fresh) Bolt.empty)
    as (d & b & Hrun & Hb & Hinv & Hs & _).
  - reflexivity.
  - apply store_inv_empty.
  - cbn [sequence Bolt.empty]. lia.
  - exists d, b. split; [exact Hrun|]. split; [exact Hb|].
    split; [exact Hinv|]. split; [apply store_inv_timestamps_NoDup, Hinv|].
    rewrite Hs. cbn [sequence Bolt.empty]. lia.
Qed.

(** X11 on three stores with a sweep in between that empties the bucket:
    the third record still gets identifier 3. *)
Lemma run_writes_invariant_witness :
  exists d b,
    run_writes [WriteStore (Scenario.arrival Scenario.T0);
                WriteStore (Scenario.arrival (Scenario.T0 + 1000000000));
                WriteSweep Scenario.T0 0;
                WriteStore (Scenario.arrival (Scenario.T0 + 2000000000))]
               (database_init fresh) = Some d /\
    buckets d !! dbbucket = Some b /\
    map ID (items b) = [3].
Proof.
  destruct (run_writes_invariant
              [WriteStore (Scenario.arrival Scenario.T0);
               WriteStore (Scenario.arrival (Scenario.T0 + 1000000000));
               WriteSweep Scenario.T0 0;
               WriteStore (Scenario.arrival (Scenario.T0 + 2000000000))])
    as (d & b & Hrun & Hb & _).
  - vm_compute. reflexivity.
  - exists d, b. split; [exact Hrun|]. split; [exact Hb|].
    vm_compute in Hrun. injection Hrun as <-.
    vm_compute in Hb. injection Hb as <-. vm_compute. reflexivity.
Defined.

(** X12.  [database_count_segments] reads the bucket "segments", which
    neither [database_init] nor any writer creates: on a file that had no
    such bucket when it was opened it returns 0 after any sequence of
    stores and sweeps, however many records the bucket "main" holds. *)
Theorem database_count_segments_zero
    (d0 d : Database) (ws : list Write) :
  buckets d0 !! "segments"%string = None ->
  run_writes ws (database_init d0) = Some d ->
  database_count_segments d = 0.
Proof.
  intros Hnone Hrun. unfold database_count_segments.
  rewrite (run_writes_other ws _ _ "segments" Hrun) by discriminate.
  rewrite database_init_other by discriminate.
  rewrite Hnone. reflexivity.
Qed.

(** X12 after three stores: three records, count 0. *)
Lemma database_count_segments_zero_witness :
  exists d,
    run_writes [WriteStore (Scenario.arrival Scenario.T0);
                WriteStore (Scenario.arrival (Scenario.T0 + 1000000000));
                WriteStore (Scenario.arrival (Scenario.T0 + 2000000000))]
               (database_init fresh) = Some d /\
    (Bolt.KeyN <$> buckets d !! dbbucket) = Some 3%nat /\
    database_count_segments d = 0.
Proof.
  destruct (run_writes
              [WriteStore (Scenario.arrival Scenario.T0);
               WriteStore (Scenario.arrival (Scenario.T0 + 1000000000));
               WriteStore (Scenario.arrival (Scenario.T0 + 2000000000))]
              (database_init fresh)) as [d|] eqn:Hrun;
    [|vm_compute in Hrun; discriminate].
  exists d. split; [reflexivity|].
  split.
  - vm_compute in Hrun. injection Hrun as <-. vm_compute. reflexivity.
  - apply (database_count_segments_zero fresh d _ eq_refl Hrun).
Defined.

(** X13.  [database_init] creates the bucket "main" when the file lacks
    it and otherwise changes nothing, so that running it again keeps every
    record; after it a store finds its bucket, whereas on a file without
    the bucket [database_store] panics on the nil bucket. *)
Theorem database_init_keeps_records (d : Database) (item : DatabaseItem) :
  database_init (database_init d) = database_init d /\
  (is_Some (buckets d !! dbbucket) -> database_init d = d) /\
  (forall name, name <> dbbucket ->
     buckets (database_init d) !! name = buckets d !! name) /\
  is_Some (file_store item (database_init d)) /\
  (buckets d !! dbbucket = None -> file_store item d = None).
Proof.
  assert (Hid : forall d', is_Some (buckets d' !! dbbucket) ->
                           database_init d' = d').
  { intros d' [b Hb]. unfold database_init, CreateBucketIfNotExists.
    rewrite Hb. reflexivity. }
  split; [apply Hid, database_init_main|]. split; [apply Hid|].
  split; [intros name; apply database_init_other|]. split.
  - destruct (database_init_main d) as [b Hb].
    unfold file_store. rewrite Hb. cbn [mbind option_bind].
    destruct (database_store item b). eauto.
  - intros Hnone. unfold file_store. rewrite Hnone. reflexivity.
Qed.

Lemma database_init_keeps_records_witness :
  file_store (Scenario.arrival Scenario.T0) fresh = None /\
  database_init (database_init fresh) = database_init fresh.
Proof.
  destruct (database_init_keeps_records fresh (Scenario.arrival Scenario.T0))
    as (Hidem & _ & _ & _ & Hpanic).
  split; [apply Hpanic; reflexivity|exact Hidem].
Defined.

End FileProperties.

(** ** More about the FIFO cache *)

Module CacheFacts2.
Import Cache CacheFacts.

(** With a negative bound the eviction loop runs the list down to empty
    and then dereferences the nil [Back()]. *)
Lemma evict_negative (c : FIFOCache) : maxSize c < 0 -> evict c = None.
Proof.
  funelim (evict c); intros HK.
  - lia.
  - apply H. exact HK.
  - reflexivity.
Qed.

Lemma take_snoc_length {A} (l : list A) (x : A) :
  take (length l) (l ++ [x]) = l.
Proof. rewrite take_app_le by lia. apply take_ge. lia. Qed.

Lemma take_app_take {A} (n : nat) (l1 l2 : list A) :
  take n (l1 ++ take n l2) = take n (l1 ++ l2).
Proof.
  destruct (decide (n <= length l1)%nat) as [Hle|Hgt].
  - rewrite !take_app_le by lia. reflexivity.
  - rewrite !take_app_ge by lia. f_equal.
    rewrite take_take. f_equal. lia.
Qed.

(** A run of [Set] calls on keys that are pairwise distinct and absent
    from the cache admits them all and leaves the newest [K] keys. *)
Lemma run_fresh_keys (K : Z) (keys : list string) :
  0 <= K -> NoDup keys ->
  forall c, within K c -> (forall x, x ∈ keys -> x ∉ cache c) ->
  exists c',
    run (map CallSet keys) c = Some (c', map (fun _ => true) keys) /\
    within K c' /\
    list_ c' = take (Z.to_nat K) (rev keys ++ list_ c).
Proof.
  intros HK. induction keys as [|k keys IH]; intros Hnd c Hw Hfresh.
  - exists c. split; [reflexivity|]. split; [exact Hw|].
    cbn. destruct Hw as (_ & _ & Hlen). rewrite take_ge; [reflexivity|lia].
  - apply NoDup_cons in Hnd as [Hk Hnd].
    destruct Hw as (Hc & Hmax & Hlen).
    destruct (FIFOCache_Set_spec k c) as (c1 & HS & Hmax1 & Hc1 & _ & Hout);
      [lia|exact Hc|].
    assert (k ∉ cache c) as Hkc by (apply Hfresh; left).
    specialize (Hout Hkc). rewrite bool_decide_eq_true_2 in HS by exact Hkc.
    rewrite Hmax in Hout.
    destruct (IH Hnd c1) as (c' & Hrun & Hw' & Hlist).
    + split; [exact Hc1|]. split; [lia|].
      rewrite Hout, length_take. lia.
    + intros x Hx Hin. apply Hc1 in Hin. rewrite Hout in Hin.
      apply elem_of_take in Hin as (i & Hi & _).
      apply list_elem_of_lookup_2 in Hi.
      apply elem_of_cons in Hi as [->|Hi]; [contradiction|].
      apply Hc in Hi. apply (Hfresh x); [right; exact Hx|exact Hi].
    + exists c'. cbn [map run]. rewrite HS. cbn. rewrite Hrun. cbn.
      split; [reflexivity|]. split; [exact Hw'|].
      rewrite Hlist, Hout. cbn [rev]. rewrite <- app_assoc. cbn [app].
      apply take_app_take.
Qed.

End CacheFacts2.

Section CacheProperties.
Import Cache CacheFacts CacheFacts2.

(** X14.  A cache built with a negative capacity cannot admit anything:
    [Set] of a key that is absent panics (the eviction loop empties the
    list and dereferences the nil [Back()]), while [Set] of a key that is
    present still returns false. *)
Theorem FIFOCache_Set_negative_capacity (c : FIFOCache) (url : string) :
  maxSize c < 0 ->
  (url ∉ cache c -> FIFOCache_Set url c = None) /\
  (url ∈ cache c -> FIFOCache_Set url c = Some (c, false)).
Proof.
  intros HK. unfold FIFOCache_Set.
  destruct (decide (url ∈ cache c)) as [Hin|Hout]; split; try tauto.
  intros _. rewrite evict_negative by exact HK. reflexivity.
Qed.

Lemma FIFOCache_Set_negative_capacity_witness :
  FIFOCache_Set "a" (NewFIFOCache (-1)) = None.
Proof.
  destruct (FIFOCache_Set_negative_capacity (NewFIFOCache (-1)) "a")
    as [H _]; [cbn; lia|].
  apply H. cbn. set_solver.
Defined.

(** X15.  [Set] of a new key on a cache within its bound [K >= 1]: while
    there is room the key is put in front and nothing is evicted; when the
    cache is full exactly the oldest key leaves, the new key is in, and
    every other key stays. *)
Theorem FIFOCache_Set_evicts_oldest (K : Z) (c : FIFOCache) (url : string) :
  1 <= K -> within K c -> url ∉ cache c ->
  exists c',
    FIFOCache_Set url c = Some (c', true) /\ within K c' /\
    (Z.of_nat (length (list_ c)) < K ->
       list_ c' = url :: list_ c /\ cache c' = {[url]} ∪ cache c) /\
    (Z.of_nat (length (list_ c)) = K ->
       exists older oldest,
         list_ c = older ++ [oldest] /\
         list_ c' = url :: older /\
         cache c' = ({[url]} ∪ cache c) ∖ {[oldest]}).
Proof.
  intros HK (Hc & Hmax & Hlen) Hout.
  destruct (within_Set K url c) as (c' & HS & Hw'); [lia|split; auto|].
  destruct (FIFOCache_Set_spec url c) as (c1 & HS1 & _ & Hc1 & _ & Hlist);
    [lia|exact Hc|].
  rewrite HS in HS1. injection HS1 as <-.
  rewrite bool_decide_eq_true_2 in HS by exact Hout.
  specialize (Hlist Hout). rewrite Hmax in Hlist.
  exists c'. split; [exact HS|]. split; [exact Hw'|].
  replace (Z.to_nat K) with (S (Z.to_nat (K - 1))) in Hlist by lia.
  cbn [take] in Hlist.
  rewrite (consistent_set c' Hc1), (consistent_set c Hc), Hlist.
  split.
  - intros Hroom. rewrite take_ge by lia.
    split; [reflexivity|]. cbn [list_to_set]. reflexivity.
  - intros Hfull.
    assert (exists older oldest, list_ c = older ++ [oldest]) as (l & x & Hl).
    { revert Hfull. destruct (list_ c) as [|x l _] using rev_ind;
        [cbn; lia|eauto]. }
    rewrite Hl in *. rewrite length_app in Hfull. cbn [length] in Hfull.
    exists l, x. split; [reflexivity|].
    replace (Z.to_nat (K - 1)) with (length l) by lia.
    rewrite take_snoc_length. split; [reflexivity|].
    destruct Hc as [Hnd Hmem]. rewrite Hl in Hnd, Hmem.
    apply NoDup_app in Hnd as (_ & Hfresh & _).
    assert (x <> url) as Hx.
    { intros ->. apply Hout, Hmem, elem_of_app. right. left. }
    assert (x ∉ l) as Hxl.
    { intros Hin. apply (Hfresh x Hin). left. }
    rewrite list_to_set_app_L. cbn [list_to_set].
    apply set_eq. intros y.
    rewrite elem_of_difference, !elem_of_union, !elem_of_singleton,
      !elem_of_list_to_set, elem_of_empty.
    split.
    + intros [->|Hy]; [split; [auto|congruence]|].
      split; [auto|]. intros ->. contradiction.
    + intros [[->|[Hy|[->|[]]]] Hne]; auto. contradiction.
Qed.

(** X15 at capacity 2 holding "b" (older) and "c": admitting "a" evicts
    "b". *)
Lemma FIFOCache_Set_evicts_oldest_witness :
  exists c c',
    observe (run [CallSet "b"; CallSet "c"] (NewFIFOCache 2))
      = Some (list_ c, [true; true]) /\
    FIFOCache_Set "a" c = Some (c', true) /\
    list_ c' = ["a"; "c"]%string.
Proof.
  destruct (run_within 2 [CallSet "b"; CallSet "c"] ltac:(lia)
              (NewFIFOCache 2) (consistent_new 2 ltac:(lia)))
    as (c & outs & Hrun & Hw & _).
  assert (list_ c = ["c"; "b"]%string /\ outs = [true; true]) as [Hl Ho].
  { vm_compute in Hrun. injection Hrun as <- <-. split; reflexivity. }
  destruct (FIFOCache_Set_evicts_oldest 2 c "a") as (c' & HS & _ & _ & Hfull).
  - lia.
  - exact Hw.
  - intros Hin. apply Hw in Hin. rewrite Hl in Hin.
    repeat (apply elem_of_cons in Hin as [Hin|Hin]; [discriminate|]).
    inversion Hin.
  - destruct Hfull as (older & oldest & Hlo & Hl' & _).
    + rewrite Hl. reflexivity.
    + exists c, c'. rewrite Hrun. cbn. rewrite Ho. split; [reflexivity|].
      split; [exact HS|]. rewrite Hl', Hl in *.
      destruct older as [|o1 [|o2 [|]]]; try discriminate.
      injection Hlo as <- _. reflexivity.
Defined.

(** X16.  From an empty cache of capacity [K >= 0], [Set] on a run of
    pairwise distinct keys admits every one of them and leaves exactly the
    [K] newest in the cache, newest first. *)
Theorem FIFOCache_keeps_newest (K : Z) (keys : list string) :
  0 <= K -> NoDup keys ->
  exists c,
    run (map CallSet keys) (NewFIFOCache K)
      = Some (c, map (fun _ => true) keys) /\
    list_ c = take (Z.to_nat K) (rev keys) /\
    cache c = list_to_set (take (Z.to_nat K) (rev keys)).
Proof.
  intros HK Hnd.
  destruct (run_fresh_keys K keys HK Hnd (NewFIFOCache K))
    as (c & Hrun & Hw & Hlist).
  - apply consistent_new, HK.
  - intros x _. cbn. set_solver.
  - cbn [list_ NewFIFOCache] in Hlist. rewrite app_nil_r in Hlist.
    exists c. split; [exact Hrun|]. split; [exact Hlist|].
    rewrite <- Hlist. apply consistent_set, Hw.
Qed.

Lemma FIFOCache_keeps_newest_witness :
  observe (run (map CallSet ["s1"; "s2"; "s3"; "s4"]%string) (NewFIFOCache 3))
  = Some (["s4"; "s3"; "s2"]%string, [true; true; true; true]).
Proof.
  destruct (FIFOCache_keeps_newest 3 ["s1"; "s2"; "s3"; "s4"]%string)
    as (c & Hrun & Hlist & _).
  - lia.
  - apply (bool_decide_unpack _). vm_compute. exact I.
  - rewrite Hrun. cbn. rewrite Hlist. reflexivity.
Defined.

(** X17.  On a cache within its bound [K >= 1], a key that [Set] has just
    been called on is refused by the next [Set], which changes nothing;
    [Clear] empties the cache, keeps the capacity, and the key is admitted
    again. *)
Theorem FIFOCache_Set_twice (K : Z) (c : FIFOCache) (url : string) :
  1 <= K -> within K c ->
  exists c1 b,
    FIFOCache_Set url c = Some (c1, b) /\
    FIFOCache_Set url c1 = Some (c1, false) /\
    FIFOCache_Size (FIFOCache_Clear c1) = 0 /\
    maxSize (FIFOCache_Clear c1) = K /\
    exists c2, FIFOCache_Set url (FIFOCache_Clear c1) = Some (c2, true).
Proof.
  intros HK Hw.
  destruct (within_Set K url c ltac:(lia) Hw) as (c1 & HS & Hw1).
  exists c1, (bool_decide (url ∉ cache c)). split; [exact HS|].
  assert (url ∈ cache c1) as Hin.
  { destruct Hw as (Hc & Hmax & _).
    destruct (FIFOCache_Set_spec url c) as (c' & HS' & _ & Hc' & Hold & Hnew);
      [lia|exact Hc|].
    rewrite HS in HS'. injection HS' as <-.
    destruct (decide (url ∈ cache c)) as [Hi|Ho].
    - rewrite (Hold Hi). exact Hi.
    - apply Hc'. rewrite (Hnew Ho), Hmax.
      replace (Z.to_nat K) with (S (Z.to_nat (K - 1))) by lia. left. }
  split.
  { unfold FIFOCache_Set. rewrite decide_True by exact Hin. reflexivity. }
  split; [reflexivity|].
  split; [cbn [FIFOCache_Clear maxSize]; apply (proj1 (proj2 Hw1))|].
  destruct (within_Set K url (FIFOCache_Clear c1) ltac:(lia)
              (within_Clear K c1 ltac:(lia) Hw1)) as (c2 & HS2 & _).
  exists c2. rewrite HS2. reflexivity.
Qed.

Lemma FIFOCache_Set_twice_witness :
  exists c1, FIFOCache_Set "u" (NewFIFOCache 100) = Some (c1, true) /\
             FIFOCache_Set "u" c1 = Some (c1, false).
Proof.
  destruct (FIFOCache_Set_twice 100 (NewFIFOCache 100) "u")
    as (c1 & b & HS & Hagain & _).
  - lia.
  - apply consistent_new. lia.
  - exists c1. split; [|exact Hagain].
    assert (b = true) as ->; [|exact HS].
    vm_compute in HS. congruence.
Defined.

End CacheProperties.

(** ** Decimal text: [Sprintf("%d")] read back by [Atoi] *)

Module DecimalFacts.
Import GoInt Strconv.

Lemma digit_of_pretty_N_char (d : N) :
  (d < 10)%N -> digit_of (pretty_N_char d) = Some (Z.of_N d).
Proof.
  intros Hd.
  destruct d as [|p]; [reflexivity|].
  do 4 (destruct p as [p|p|]; try reflexivity; try lia).
Qed.

Lemma digits_app (ds rest : list ascii) :
  forall acc, digits (ds ++ rest) acc = digits ds acc ≫= digits rest.
Proof.
  induction ds as [|c ds IH]; intros acc; [reflexivity|].
  cbn [app digits]. destruct (digit_of c); [apply IH|reflexivity].
Qed.

(** The digits [pretty] puts in front of a string read back as the
    number. *)
Lemma pretty_N_go_digits (x : N) :
  forall s, exists ds,
    list_ascii_of_string (pretty_N_go x s) = ds ++ list_ascii_of_string s /\
    ((0 < x)%N -> ds <> []) /\
    forall acc,
      digits ds acc = Some (acc * 10 ^ Z.of_nat (length ds) + Z.of_N x).
Proof.
  induction (N.lt_wf_0 x) as [x _ IH]. intros s.
  destruct (decide (0 < x)%N) as [Hpos|Hzero].
  - rewrite pretty_N_go_step by exact Hpos.
    destruct (IH (x `div` 10)%N
                 ltac:(apply N.div_lt; lia)
                 (String (pretty_N_char (x `mod` 10)) s))
      as (ds & Hchars & _ & Hval).
    exists (ds ++ [pretty_N_char (x `mod` 10)]).
    split; [rewrite Hchars, <- app_assoc; reflexivity|].
    split; [intros _; destruct ds; discriminate|].
    intros acc. rewrite digits_app, Hval. cbn [mbind option_bind digits].
    rewrite digit_of_pretty_N_char by (apply N.mod_lt; lia).
    f_equal. rewrite length_app. cbn [length].
    rewrite Nat2Z.inj_add, Z.pow_add_r by lia. change (10 ^ Z.of_nat 1) with 10.
    rewrite (N.div_mod x 10) at 3 by lia.
    rewrite N2Z.inj_add, N2Z.inj_mul. change (Z.of_N 10) with 10. ring.
  - assert (x = 0%N) as -> by lia. exists []. rewrite pretty_N_go_0.
    split; [reflexivity|]. split; [lia|]. intros acc. cbn. f_equal. lia.
Qed.

Lemma pretty_pos_digits (p : positive) :
  exists c cs,
    list_ascii_of_string (pretty (Z.pos p)) = c :: cs /\
    is_Some (digit_of c) /\
    digits (c :: cs) 0 = Some (Z.pos p).
Proof.
  destruct (pretty_N_go_digits (N.pos p) "") as (ds & Hchars & Hne & Hval).
  cbn [list_ascii_of_string] in Hchars. rewrite app_nil_r in Hchars.
  destruct ds as [|c cs]; [exfalso; apply Hne; [lia|reflexivity]|].
  exists c, cs. split; [exact Hchars|].
  specialize (Hval 0). split.
  - cbn [digits] in Hval. destruct (digit_of c); [eauto|discriminate].
  - rewrite Hval. f_equal.
Qed.

(** [strconv.Atoi] reads back what [%d] printed. *)
Lemma Atoi_pretty (z : Z) : in_int64 z -> Atoi (pretty z) = Some z.
Proof.
  intros Hz.
  assert (in_int64b z = true) as Hb.
  { unfold in_int64 in Hz. unfold in_int64b.
    apply andb_true_intro. split; [apply Z.leb_le|apply Z.ltb_lt]; lia. }
  destruct z as [|p|p].
  - reflexivity.
  - destruct (pretty_pos_digits p) as (c & cs & Hchars & [d Hd] & Hval).
    unfold Atoi. rewrite Hchars.
    destruct (Ascii.eqb_spec c "-"%char) as [->|_]; [discriminate|].
    destruct (Ascii.eqb_spec c "+"%char) as [->|_]; [discriminate|].
    unfold unsigned_digits. rewrite Hval, Hb. reflexivity.
  - destruct (pretty_pos_digits p) as (c & cs & Hchars & _ & Hval).
    unfold Atoi.
    change (pretty (Z.neg p)) with (String "-" (pretty (Z.pos p))).
    cbn [list_ascii_of_string]. rewrite Hchars.
    cbn [Ascii.eqb Bool.eqb]. unfold unsigned_digits. rewrite Hval.
    cbn [fmap option_fmap option_map].
    change (- Z.pos p) with (Z.neg p). rewrite Hb. reflexivity.
Qed.

End DecimalFacts.

(** ** The remaining handlers *)

Module HandlerFacts.
Import DB Server Handlers ServerFacts.

Lemma segment_entries_vod (items : list DatabaseItem) :
  segment_entries ([EXTM3U; EXT_X_PLAYLIST_TYPE_VOD; EXT_X_TARGETDURATION 20;
                    EXT_X_VERSION 4; EXT_X_MEDIA_SEQUENCE 0]
                   ++ render_items items ++ [EXT_X_ENDLIST])
  = map (fun item => (Len item, Name item)) items.
Proof.
  cbn [app segment_entries]. unfold render_items.
  induction items as [|item items IH]; [reflexivity|].
  cbn [flat_map app segment_entries map]. rewrite IH. reflexivity.
Qed.

Lemma run_writes_keeps_main (ws : list DBFile.Write) :
  forall d d',
    is_Some (DBFile.buckets d !! DBFile.dbbucket) ->
    DBFile.run_writes ws d = Some d' ->
    is_Some (DBFile.buckets d' !! DBFile.dbbucket).
Proof.
  induction ws as [|[item|now flagTail] ws IH]; intros d d' [b Hb] Hrun.
  - injection Hrun as <-. eauto.
  - rewrite (FileFacts.run_writes_store item ws d b Hb) in Hrun.
    eapply IH; [|exact Hrun]. cbn. rewrite lookup_insert_eq. eauto.
  - rewrite (FileFacts.run_writes_sweep now flagTail ws d b Hb) in Hrun.
    eapply IH; [|exact Hrun]. cbn. rewrite lookup_insert_eq. eauto.
Qed.

End HandlerFacts.

Section HandlerProperties.
Import GoInt DB Server Handlers ServerFacts HandlerFacts DecimalFacts.

(** X18.  [handleVODRequest] never answers with an error: whatever the
    route variables, it sends a VOD playlist with sequence tag 0 and one
    entry per record [database_get] returned, in order; a [utc] query
    parameter replaces the start and fixes the duration at "300"; and a
    start or duration that is not a number gives the empty playlist.  The
    live route with a [utc] parameter is this handler, so it never answers
    404. *)
Theorem handleVODRequest_playlist (start limit utc : string) (db : Store) :
  let start' := if String.eqb utc "" then start else utc in
  let limit' := if String.eqb utc "" then limit else "300"%string in
  media_sequence (handleVODRequest start limit utc db) = Some 0 /\
  playlist_entries (handleVODRequest start limit utc db)
  = map (fun item => (Len item, Name item)) (database_get start' limit' db) /\
  (Strconv.Atoi start' = None \/ Strconv.Atoi limit' = None ->
   playlist_entries (handleVODRequest start limit utc db) = []) /\
  (utc <> ""%string ->
   handleLiveStream utc db = handleVODRequest utc "300" "" db).
Proof.
  intros start' limit'.
  assert (handleVODRequest start limit utc db
          = Playlist ([EXTM3U; EXT_X_PLAYLIST_TYPE_VOD;
                       EXT_X_TARGETDURATION 20; EXT_X_VERSION 4;
                       EXT_X_MEDIA_SEQUENCE 0]
                      ++ render_items (database_get start' limit' db)
                      ++ [EXT_X_ENDLIST])) as H.
  { unfold handleVODRequest. subst start' limit'.
    destruct (String.eqb utc ""); reflexivity. }
  rewrite H. split; [reflexivity|].
  cbn [playlist_entries]. rewrite segment_entries_vod.
  split; [reflexivity|]. split.
  - unfold database_get. intros [->| ->]; [reflexivity|].
    destruct (Strconv.Atoi start'); reflexivity.
  - intros Hutc. unfold handleLiveStream.
    destruct (String.eqb_spec utc "") as [->|_]; [contradiction|].
    cbn [negb]. unfold handleVODRequest.
    destruct (String.eqb_spec utc "") as [->|_]; [contradiction|].
    reflexivity.
Qed.

Lemma handleVODRequest_playlist_witness :
  playlist_entries (handleVODRequest "soon" "5" "" Scenario.three_segments)
  = [] /\
  length (playlist_entries
            (handleLiveStream "1700000000" Scenario.three_segments)) = 3%nat.
Proof.
  destruct (handleVODRequest_playlist "soon" "5" "" Scenario.three_segments)
    as (_ & _ & Hbad & _).
  destruct (handleVODRequest_playlist "" "" "1700000000"
              Scenario.three_segments) as (_ & _ & _ & Hlive).
  split.
  - apply Hbad. left. reflexivity.
  - rewrite Hlive by discriminate. vm_compute. reflexivity.
Defined.

Section WithTime.
Variable time_Parse_Unix : string -> option Z.

(** X19.  [handleVODPlaylist] answers 400 exactly when the start does not
    parse as a timestamp; otherwise the Unix seconds it prints with [%d]
    are read back unchanged by [database_get], so that the playlist lists
    what [database_get] finds for these seconds and the parsed
    duration. *)
Theorem handleVODPlaylist_start (start limit : string) (db : Store) :
  (time_Parse_Unix start = None <->
   handleVODPlaylist time_Parse_Unix start limit db
   = HttpError StatusBadRequest "Invalid timestamp format") /\
  (forall unix li,
     time_Parse_Unix start = Some unix -> in_int64 unix ->
     Strconv.Atoi limit = Some li ->
     playlist_entries (handleVODPlaylist time_Parse_Unix start limit db)
     = map (fun item => (Len item, Name item))
           (database_get_int unix li db)).
Proof.
  unfold handleVODPlaylist. split.
  - destruct (time_Parse_Unix start); split; congruence.
  - intros unix li Hp Hr Hl. rewrite Hp. cbn [playlist_entries].
    rewrite segment_entries_vod. unfold database_get.
    rewrite (Atoi_pretty unix Hr), Hl. reflexivity.
Qed.

End WithTime.

(** X19 with a stand-in parser that knows one timestamp. *)
Lemma handleVODPlaylist_start_witness :
  let parse := fun s : string =>
    if String.eqb s "20231114221320" then Some 1700000000 else None in
  length (playlist_entries
            (handleVODPlaylist parse "20231114221320" "300"
                               Scenario.three_segments)) = 3%nat.
Proof.
  intros parse.
  destruct (handleVODPlaylist_start parse "20231114221320" "300"
              Scenario.three_segments) as [_ H].
  rewrite (H 1700000000 300).
  - vm_compute. reflexivity.
  - reflexivity.
  - vm_compute. split; congruence.
  - reflexivity.
Defined.

(** X20.  [handleAPIStats] on a file that was initialised and then written
    by any stores and sweeps, with the package-level cache (capacity 10)
    in any state it can reach: it reports [segments_total] 0,
    [segments_recent] between 0 and 6, and [cache_size] between 0 and
    10. *)
Theorem handleAPIStats_bounds
    (uptime : Z) (calls : list Cache.Call) (ws : list DBFile.Write)
    (d0 d : DBFile.Database) :
  DBFile.buckets d0 !! "segments"%string = None ->
  DBFile.run_writes ws (DBFile.database_init d0) = Some d ->
  exists globalCache outs stats,
    Cache.run calls (Cache.NewFIFOCache 10) = Some (globalCache, outs) /\
    handleAPIStats uptime globalCache d = Some stats /\
    segments_total stats = 0 /\
    0 <= segments_recent stats <= 6 /\
    0 <= cache_size stats <= 10 /\
    uptime_seconds stats = uptime.
Proof.
  intros Hnone Hrun.
  destruct (CacheFacts.run_within 10 calls ltac:(lia) _
              (CacheFacts.consistent_new 10 ltac:(lia)))
    as (g & outs & Hcalls & (Hc & _ & Hlen) & _).
  destruct (run_writes_keeps_main ws _ d
              (FileFacts.database_init_main d0) Hrun) as [b Hb].
  exists g, outs.
  unfold handleAPIStats, DBFile.file_last_5. rewrite Hb.
  cbn [fmap option_fmap option_map mbind option_bind].
  eexists. split; [exact Hcalls|]. split; [reflexivity|].
  cbn [segments_total segments_recent cache_size uptime_seconds].
  split.
  - unfold DBFile.database_count_segments.
    rewrite (FileFacts2.run_writes_other ws _ _ "segments" Hrun) by discriminate.
    rewrite FileFacts.database_init_other by discriminate.
    rewrite Hnone. reflexivity.
  - split.
    + pose proof (QueryFacts.last_5_scan_bound (Bolt.scan_backward b) 0 []) as H.
      rewrite DBFacts.database_last_5_eq, length_rev.
      cbn [length] in H.
      destruct (last_5_scan (Bolt.scan_backward b) 0 []);
        cbn [tail length] in *; lia.
    + split; [|reflexivity].
      rewrite (CacheFacts.consistent_size g Hc). lia.
Qed.

Lemma handleAPIStats_bounds_witness :
  exists d stats,
    DBFile.run_writes [DBFile.WriteStore (Scenario.arrival Scenario.T0)]
                      (DBFile.database_init DBFile.fresh) = Some d /\
    handleAPIStats 0 (Cache.NewFIFOCache 10) d = Some stats /\
    segments_total stats = 0.
Proof.
  destruct (DBFile.run_writes
              [DBFile.WriteStore (Scenario.arrival Scenario.T0)]
              (DBFile.database_init DBFile.fresh)) as [d|] eqn:Hrun;
    [|vm_compute in Hrun; discriminate].
  destruct (handleAPIStats_bounds 0 [] _ DBFile.fresh d eq_refl Hrun)
    as (g & outs & stats & Hcalls & Hstats & Htotal & _).
  injection Hcalls as <- <-.
  exists d, stats. auto.
Defined.

End HandlerProperties.

(** ** More about the fetch loops *)

Module HLSFacts2.
Import DB Cache CacheFacts HLS HLSFacts.

(** [Set] of a new key while there is room: the key goes in front and
    nothing leaves. *)
Lemma FIFOCache_Set_room (K : Z) (c : FIFOCache) (url : string) :
  within K c -> Z.of_nat (length (list_ c)) < K -> url ∉ cache c ->
  exists c',
    FIFOCache_Set url c = Some (c', true) /\ within K c' /\
    list_ c' = url :: list_ c /\
    (forall x, x ∈ cache c' <-> x = url \/ x ∈ cache c).
Proof.
  intros (Hc & Hmax & Hlen) Hroom Hout.
  destruct (within_Set K url c) as (c' & HS & Hw'); [lia|split; auto|].
  destruct (FIFOCache_Set_spec url c) as (c1 & HS1 & _ & Hc1 & _ & Hlist);
    [lia|exact Hc|].
  rewrite HS in HS1. injection HS1 as <-.
  rewrite bool_decide_eq_true_2 in HS by exact Hout.
  specialize (Hlist Hout). rewrite Hmax in Hlist.
  rewrite take_ge in Hlist by (cbn [length]; lia).
  exists c'. split; [exact HS|]. split; [exact Hw'|]. split; [exact Hlist|].
  intros x. destruct Hc1 as [_ Hmem]. rewrite Hmem, Hlist, elem_of_cons.
  destruct Hc as [_ Hmem0]. rewrite Hmem0. reflexivity.
Qed.

Lemma FIFOCache_Set_present (c : FIFOCache) (url : string) :
  url ∈ cache c -> FIFOCache_Set url c = Some (c, false).
Proof.
  intros Hin. unfold FIFOCache_Set. rewrite decide_True by exact Hin.
  reflexivity.
Qed.

Section Net.
Context {URL : Type} {urls : UrlLib URL}.
Variable env : Env.

(** A segment whose URL is in the cache is passed over: the state is
    left exactly as it was. *)
Lemma processSegment_refused (base : URL) (segment : MediaSegment) (s : Sys)
    (u : string) :
  segment_url base segment = Some u ->
  u ∈ cache (sys_cache s) ->
  processSegment env base (Some segment) s = Some (tt, s).
Proof.
  intros Hu Hin. unfold segment_url in Hu.
  destruct (segment_fetchurl base segment) as [f|] eqn:Hf;
    [|discriminate].
  cbn in Hu. injection Hu as <-.
  unfold processSegment, bind, cache_Set. rewrite Hf. cbn [deref ret].
  rewrite (FIFOCache_Set_present _ _ Hin). destruct s. reflexivity.
Qed.

(** After an admitted segment the cache is the one [Set] returned. *)
Lemma processSegment_admitted (base : URL) (segment : MediaSegment)
    (s s' : Sys) (u : string) (c : FIFOCache) :
  segment_url base segment = Some u ->
  FIFOCache_Set u (sys_cache s) = Some (c, true) ->
  processSegment env base (Some segment) s = Some (tt, s') ->
  sys_cache s' = c.
Proof.
  intros Hu HS. unfold segment_url in Hu.
  destruct (segment_fetchurl base segment) as [f|] eqn:Hf;
    [|discriminate].
  cbn in Hu. injection Hu as <-.
  unfold processSegment, bind, cache_Set. rewrite Hf. cbn [deref ret].
  rewrite HS. cbn.
  destruct (response_body _); cbn.
  - destruct (WriteFile_ok env _ _); cbn; intros [= <-]; reflexivity.
  - intros [= <-]. reflexivity.
Qed.

(** A turn that returns had a segment URI that parses. *)
Lemma processSegment_parses (base : URL) (segment : MediaSegment)
    (s s' : Sys) :
  processSegment env base (Some segment) s = Some (tt, s') ->
  exists u, segment_url base segment = Some u.
Proof.
  unfold processSegment, bind, segment_url.
  destruct (segment_fetchurl base segment) as [f|]; [eauto|discriminate].
Qed.

Lemma processSegments_cons (segment : option MediaSegment)
    (rest : list (option MediaSegment)) (base : URL) (s s1 : Sys) :
  processSegments env (segment :: rest) base s = Some (tt, s1) ->
  exists s0,
    processSegment env base segment s = Some (tt, s0) /\
    processSegments env rest base s0 = Some (tt, s1).
Proof.
  cbn [processSegments]. unfold bind at 1.
  destruct (processSegment env base segment s) as [[[] s0]|]; [|discriminate].
  eauto.
Qed.

(** One pass over a playlist whose segments fit in the cache: nothing is
    evicted, and every announced URL is in the cache afterwards. *)
Lemma processSegments_fills_cache (K : Z) (base : URL)
    (segs : list (option MediaSegment)) :
  forall s s1 : Sys,
    within K (sys_cache s) ->
    Z.of_nat (length (list_ (sys_cache s)) + length (announced segs)) <= K ->
    processSegments env segs base s = Some (tt, s1) ->
    within K (sys_cache s1) /\
    (forall x, x ∈ cache (sys_cache s) -> x ∈ cache (sys_cache s1)) /\
    (forall segment, Some segment ∈ segs ->
       exists u, segment_url base segment = Some u /\
                 u ∈ cache (sys_cache s1)).
Proof.
  induction segs as [|seg segs IH]; intros s s1 Hw Hroom Hrun.
  - injection Hrun as <-. split; [exact Hw|]. split; [auto|].
    intros segment Hin. inversion Hin.
  - apply processSegments_cons in Hrun as (s0 & Hstep & Hrest).
    assert (within K (sys_cache s0) /\
            (length (list_ (sys_cache s0)) + length (announced segs)
             <= length (list_ (sys_cache s)) + length (announced (seg :: segs)))%nat /\
            (forall x, x ∈ cache (sys_cache s) -> x ∈ cache (sys_cache s0)) /\
            (forall segment, seg = Some segment ->
               exists u, segment_url base segment = Some u /\
                         u ∈ cache (sys_cache s0)))
      as (Hw0 & Hlen0 & Hsub0 & Hin0).
    { destruct seg as [segment|].
      - change (announced (Some segment :: segs))
          with (segment :: announced segs) in *.
        cbn [length] in *.
        destruct (processSegment_parses _ _ _ _ Hstep) as [u Hu].
        destruct (decide (u ∈ cache (sys_cache s))) as [Hin|Hout].
        + rewrite (processSegment_refused base segment s u Hu Hin) in Hstep.
          injection Hstep as <-. split; [exact Hw|]. split; [lia|].
          split; [auto|]. intros ? [= <-]. eauto.
        + destruct (FIFOCache_Set_room K (sys_cache s) u Hw ltac:(lia) Hout)
            as (c' & HS & Hw' & Hlist & Hmem).
          rewrite (processSegment_admitted base segment s s0 u c' Hu HS Hstep).
          split; [exact Hw'|]. split; [rewrite Hlist; cbn [length]; lia|].
          split; [intros x Hx; apply Hmem; auto|].
          intros ? [= <-]. exists u. split; [exact Hu|]. apply Hmem. auto.
      - change (announced (None :: segs)) with (announced segs) in *.
        injection Hstep as <-. split; [exact Hw|]. split; [lia|].
        split; [auto|]. discriminate. }
    destruct (IH s0 s1 Hw0 ltac:(lia) Hrest) as (Hw1 & Hsub1 & Hin1).
    split; [exact Hw1|]. split; [auto|].
    intros segment Hin. apply elem_of_cons in Hin as [<-|Hin]; [|auto].
    destruct (Hin0 segment eq_refl) as (u & Hu & Hmem). eauto.
Qed.

(** A pass over segments that are all in the cache does nothing. *)
Lemma processSegments_all_refused (base : URL)
    (segs : list (option MediaSegment)) (s : Sys) :
  (forall segment, Some segment ∈ segs ->
     exists u, segment_url base segment = Some u /\
               u ∈ cache (sys_cache s)) ->
  processSegments env segs base s = Some (tt, s).
Proof.
  induction segs as [|[segment|] segs IH]; intros Hall; [reflexivity| |].
  - cbn [processSegments]. unfold bind.
    destruct (Hall segment ltac:(left)) as (u & Hu & Hin).
    rewrite (processSegment_refused base segment s u Hu Hin).
    apply IH. intros seg Hseg. apply Hall. right. exact Hseg.
  - cbn [processSegments]. unfold bind. cbn [processSegment ret].
    apply IH. intros seg Hin. apply Hall. right. exact Hin.
Qed.

End Net.

End HLSFacts2.

(** The names the loops give their blobs are plain ASCII, so that a
    record reads back under the name its blob was written under. *)
Module NameFacts.
Import DB Utf8 Utf8Facts HLS.

Lemma ascii_only_app (s1 s2 : string) :
  ascii_only s1 -> ascii_only s2 -> ascii_only (s1 +:+ s2).
Proof.
  unfold ascii_only. induction s1 as [|c s1 IH]; intros H1 H2; [exact H2|].
  cbn [String.append list_ascii_of_string] in *.
  apply Forall_cons in H1 as [Hc H1]. constructor; [exact Hc|auto].
Qed.

Lemma pretty_N_char_ascii (d : N) : byte_of (pretty_N_char d) < 128.
Proof.
  destruct d as [|p]; [vm_compute; reflexivity|].
  do 4 (try destruct p as [p|p|]); vm_compute; reflexivity.
Qed.

Lemma pretty_N_go_ascii (x : N) :
  forall s, ascii_only s -> ascii_only (pretty_N_go x s).
Proof.
  induction (N.lt_wf_0 x) as [x _ IH]. intros s Hs.
  destruct (decide (0 < x)%N) as [Hpos|Hzero].
  - rewrite pretty_N_go_step by exact Hpos.
    apply IH; [apply N.div_lt; lia|].
    constructor; [apply pretty_N_char_ascii|exact Hs].
  - assert (x = 0%N) as -> by lia. rewrite pretty_N_go_0. exact Hs.
Qed.

Lemma pretty_Z_ascii (z : Z) : ascii_only (pretty z).
Proof.
  assert (Hpos : forall p, ascii_only (pretty (Z.pos p))).
  { intros p. apply (pretty_N_go_ascii (N.pos p) ""). constructor. }
  destruct z as [|p|p].
  - repeat constructor.
  - apply Hpos.
  - change (pretty (Z.neg p)) with (String "-" (pretty (Z.pos p))).
    constructor; [vm_compute; reflexivity|apply Hpos].
Qed.

Lemma new_item_reads_back (segment : MediaSegment) (t id : Z) :
  json_text (set_ID (new_item segment t) id) = set_ID (new_item segment t) id.
Proof.
  apply json_text_valid. cbn [Name set_ID new_item].
  apply ValidString_ascii, ascii_only_app; [apply pretty_Z_ascii|].
  repeat constructor.
Qed.

End NameFacts.

Section FetchProperties.
Import Bytes Bolt DB Cache CacheFacts HLS HLSFacts HLSFacts2 HLSStoreFacts
       NameFacts Handlers.
Context {URL : Type} {urls : UrlLib URL}.
Variable m3u8_Decode : list Z -> Decoded.
Variable env : Env.

(** X21.  Whenever [processSegments] adds a record for a segment, the
    bytes it downloaded are in the blob directory under the record's name,
    where [handleServeFile] serves them, and the record is found in the
    bucket under the key of its arrival timestamp; when the segment's
    duration is finite it reads back with the very name the blob was
    written under. *)
Theorem processSegment_blob_served
    (base : URL) (segment : MediaSegment) (s s' : Sys) :
  processSegment env base (Some segment) s = Some (tt, s') ->
  sys_db s' <> sys_db s ->
  let item := new_item segment (time_Now env (sys_tick s)) in
  let item' := fst (database_store item (sys_db s)) in
  exists fetchurl data,
    segment_url base segment = Some fetchurl /\
    response_body (http_Do env (S (sys_tick s)) fetchurl) = Some data /\
    handleServeFile (Name item) (sys_files s') = ServeBytes "video/mp2t" data /\
    Get (itob (T item)) (sys_db s') = Some (json_Marshal item') /\
    (float_is_finite (Duration segment) = true ->
     json_Unmarshal (json_Marshal item') = Some item' /\
     Name item' = Name item).
Proof.
  intros Hrun Hchanged item item'.
  destruct (processSegment_db env base segment s s' Hrun)
    as (u & Hu & [Hsame|Hstored] & Hwhy & _); [contradiction|].
  destruct (Hwhy Hchanged) as (_ & data & Hdl & Hfile).
  exists u, data. split; [exact Hu|]. split; [exact Hdl|]. split; [|split].
  - unfold handleServeFile. fold item in Hfile. rewrite Hfile. reflexivity.
  - fold item in Hstored. rewrite Hstored. subst item'.
    rewrite DBFacts.database_store_eq. cbn [fst snd]. unfold Get.
    cbn [entries]. apply BoltFacts.get_put_same.
  - intros Hfin. subst item' item. rewrite DBFacts.database_store_eq.
    cbn [fst]. split; [|reflexivity].
    unfold json_Marshal. cbn [Len set_ID new_item]. rewrite Hfin.
    cbn [json_Unmarshal]. f_equal. apply new_item_reads_back.
Qed.

(** X22.  The two loops treat a segment alike as long as nothing fails:
    when the download returns bytes and the blob is written, [fetcher] and
    [processSegments] leave the same state; on a segment URI that does
    not parse both panic. *)
Theorem fetcher_segment_agrees
    (base : URL) (segment : MediaSegment) (s : Sys) (data : list Z) :
  (forall fetchurl, segment_url base segment = Some fetchurl ->
     response_body (http_Do env (S (sys_tick s)) fetchurl) = Some data) ->
  WriteFile_ok env (S (S (sys_tick s)))
    ("./files/" +:+ Name (new_item segment (time_Now env (sys_tick s))))
  = true ->
  fetcher_segment env base (Some segment) s
  = processSegment env base (Some segment) s.
Proof.
  intros Hdl Hw. unfold segment_url in Hdl.
  unfold fetcher_segment, processSegment, bind, cache_Set.
  destruct (segment_fetchurl base segment) as [f|]; [|reflexivity].
  specialize (Hdl (url_String f) eq_refl). cbn [deref ret].
  destruct (FIFOCache_Set (url_String f) (sys_cache s))
    as [[c [|]]|]; [|reflexivity|reflexivity].
  cbn in Hdl, Hw |- *. rewrite Hdl. cbn. rewrite Hw. cbn. reflexivity.
Qed.

(** X23.  A poll that announces again a playlist already processed does
    nothing at all — no request, no record, no blob — provided the cache
    had room for the playlist's segments when they were first seen; the
    nil entries that pad the slice do not count. *)
Theorem processSegments_reannounced
    (K : Z) (base : URL) (segs : list (option MediaSegment)) (s s1 : Sys) :
  within K (sys_cache s) ->
  Z.of_nat (length (list_ (sys_cache s)) + length (announced segs)) <= K ->
  processSegments env segs base s = Some (tt, s1) ->
  processSegments env segs base s1 = Some (tt, s1).
Proof.
  intros Hw Hroom Hrun.
  apply processSegments_all_refused.
  apply (processSegments_fills_cache env K base segs s s1 Hw Hroom Hrun).
Qed.

(** X24.  While every request fails, [fetchLoop] keeps asking for the
    same URL, one second apart, and touches neither the cache, the bucket
    nor the blob directory. *)
Theorem fetchLoop_retries (mainurl : URL) :
  (forall n u, response_body (http_Do env n u) = None) ->
  forall (n : nat) (s : Sys),
    fetchLoop m3u8_Decode env n mainurl s
    = Some (mainurl,
            {| sys_cache := sys_cache s; sys_db := sys_db s;
               sys_files := sys_files s;
               sys_tick := (n + sys_tick s)%nat;
               sys_trace := sys_trace s
                 ++ concat (replicate n [EvFetch (url_String mainurl);
                                         EvSleep 1]) |}).
Proof.
  intros Hdown. induction n as [|n IH]; intros s.
  - cbn. rewrite app_nil_r. destruct s. reflexivity.
  - unfold fetchLoop in *. cbn [passes]. unfold bind at 1.
    rewrite fetchLoop_body_eq, Hdown.
    cbn [fetchLoop_decode Sleep emit bind ret fst].
    rewrite IH. cbn [after_fetch sys_cache sys_db sys_files sys_tick sys_trace].
    do 3 f_equal; [lia|].
    cbn [replicate concat]. rewrite <- !app_assoc. reflexivity.
Qed.

End FetchProperties.

Section FetchPropertiesScenario.
Import Bolt DB Cache CacheFacts HLS Handlers Scenario.

(** X21 on the one-segment playlist with the network up. *)
Lemma processSegment_blob_served_witness :
  exists s',
    processSegment online media_url (Some seg0) (initial 100) = Some (tt, s') /\
    handleServeFile "1700000000000000000.ts" (sys_files s')
    = ServeBytes "video/mp2t" [71; 64].
Proof.
  destruct (processSegment online media_url (Some seg0) (initial 100))
    as [[[] s']|] eqn:Hrun; [|vm_compute in Hrun; discriminate].
  exists s'. split; [reflexivity|].
  destruct (processSegment_blob_served online media_url seg0 (initial 100) s'
              Hrun) as (fetchurl & data & Hu & Hdl & Hserve & _).
  - vm_compute in Hrun. injection Hrun as <-. discriminate.
  - vm_compute in Hu. injection Hu as <-.
    vm_compute in Hdl. injection Hdl as <-. exact Hserve.
Defined.

(** X22 on the same segment. *)
Lemma fetcher_segment_agrees_witness :
  fetcher_segment online media_url (Some seg0) (initial 10)
  = processSegment online media_url (Some seg0) (initial 10).
Proof.
  apply (fetcher_segment_agrees online media_url seg0 (initial 10) [71; 64]).
  - intros fetchurl Hu. vm_compute in Hu. injection Hu as <-.
    vm_compute. reflexivity.
  - reflexivity.
Defined.

(** X23: the second poll of the one-segment playlist, handed over as
    [m3u8] does, in a slice of 1024 entries, to the cache of 100 the
    processor is built with. *)
Lemma processSegments_reannounced_witness :
  exists s1,
    processSegments online (Some seg0 :: replicate 1023 None) media_url
      (initial 100)
    = Some (tt, s1) /\
    processSegments online (Some seg0 :: replicate 1023 None) media_url s1
    = Some (tt, s1).
Proof.
  destruct (processSegments online (Some seg0 :: replicate 1023 None)
              media_url (initial 100))
    as [[[] s1]|] eqn:Hrun; [|vm_compute in Hrun; discriminate].
  exists s1. split; [reflexivity|].
  apply (processSegments_reannounced online 100 media_url
           (Some seg0 :: replicate 1023 None) (initial 100) s1).
  - apply consistent_new. lia.
  - vm_compute. congruence.
  - exact Hrun.
Defined.

(** X24 with the network down: three passes, three requests for the
    master playlist. *)
Lemma fetchLoop_retries_witness :
  let offline := {| http_Do := fun _ _ => TransportError;
                    time_Now := fun n => T0 + Z.of_nat n;
                    WriteFile_ok := fun _ _ => true |} in
  (fetched ∘ snd <$> fetchLoop Decode offline 3 master_url (initial 100))
  = Some ["http://cdn/master.m3u8"; "http://cdn/master.m3u8";
          "http://cdn/master.m3u8"]%string.
Proof.
  intros offline.
  rewrite (fetchLoop_retries Decode offline master_url).
  - reflexivity.
  - intros n u. reflexivity.
Defined.

End FetchPropertiesScenario.

(** ** The error of [Parse] that both loops drop *)

Module ParseFacts.
Import HLS HLSStoreFacts.

Section Net.
Context {URL : Type} {urls : UrlLib URL}.
Variable env : Env.

Lemma processSegments_unparseable (base : URL) (segment : MediaSegment)
    (before after : list (option MediaSegment)) :
  url_Parse base (URI segment) = None ->
  forall s, processSegments env (before ++ Some segment :: after) base s = None.
Proof.
  intros Hp. induction before as [|seg before IH]; intros s;
    cbn [app processSegments]; unfold bind at 1.
  - rewrite (proj1 (segment_unparseable env base segment s Hp)). reflexivity.
  - destruct (processSegment env base seg s) as [[[] s0]|];
      [apply IH|reflexivity].
Qed.

Lemma fetcher_segments_unparseable (base : URL) (segment : MediaSegment)
    (before after : list (option MediaSegment)) :
  url_Parse base (URI segment) = None ->
  forall s, fetcher_segments env (before ++ Some segment :: after) base s = None.
Proof.
  intros Hp. induction before as [|seg before IH]; intros s;
    cbn [app fetcher_segments]; unfold bind at 1.
  - rewrite (proj2 (segment_unparseable env base segment s Hp)). reflexivity.
  - destruct (fetcher_segment env base seg s) as [[[] s0]|];
      [apply IH|reflexivity].
Qed.

Lemma passes_panic (body : URL -> M (URL * Next)) (u : URL) (s : Sys) :
  body u s = None -> forall n, passes body (S n) u s = None.
Proof. intros H n. cbn [passes]. unfold bind. rewrite H. reflexivity. Qed.

End Net.

End ParseFacts.

Section ParseProperties.
Import HLS HLSFacts ParseFacts.
Context {URL : Type} {urls : UrlLib URL}.
Variable m3u8_Decode : list Z -> Decoded.
Variable env : Env.

(** X26.  A master playlist whose first variant's URI does not parse
    stops either loop: the error of [Parse] is dropped, the nil URL is
    dereferenced, and no later pass is made — the other variants are not
    tried and the loop does not sleep and retry. *)
Theorem fetchLoop_unparseable_variant
    (mainurl : URL) (s : Sys) (body : list Z)
    (variant : Variant) (rest : list Variant) :
  response_body (http_Do env (sys_tick s) (url_String mainurl)) = Some body ->
  m3u8_Decode body = MASTER (variant :: rest) ->
  url_Parse mainurl (VariantURI variant) = None ->
  forall n,
    fetchLoop m3u8_Decode env (S n) mainurl s = None /\
    fetcher m3u8_Decode env (S n) mainurl s = None.
Proof.
  intros Hbody Hdec Hparse n. unfold fetchLoop, fetcher.
  split; apply passes_panic.
  - rewrite fetchLoop_body_eq, Hbody.
    rewrite (fetchLoop_decode_master _ _ _ _ _ rest _ Hdec), Hparse.
    reflexivity.
  - rewrite fetcher_body_eq, Hbody.
    rewrite (fetcher_decode_master _ _ _ _ _ rest _ Hdec), Hparse.
    reflexivity.
Qed.

(** X27.  A media playlist with one segment whose URI does not parse
    stops either loop as well, wherever the segment stands in the list:
    the entry is not skipped, and the segments after it are not
    reached. *)
Theorem fetchLoop_unparseable_segment
    (mainurl : URL) (s : Sys) (body : list Z) (segment : MediaSegment)
    (before after : list (option MediaSegment)) :
  response_body (http_Do env (sys_tick s) (url_String mainurl)) = Some body ->
  m3u8_Decode body = MEDIA (before ++ Some segment :: after) ->
  url_Parse mainurl (URI segment) = None ->
  forall n,
    fetchLoop m3u8_Decode env (S n) mainurl s = None /\
    fetcher m3u8_Decode env (S n) mainurl s = None.
Proof.
  intros Hbody Hdec Hparse n. unfold fetchLoop, fetcher.
  split; apply passes_panic.
  - rewrite fetchLoop_body_eq, Hbody. unfold fetchLoop_decode.
    rewrite Hdec. unfold bind at 1.
    rewrite processSegments_unparseable by exact Hparse. reflexivity.
  - rewrite fetcher_body_eq, Hbody. unfold fetcher_decode.
    change (default [] (Some body)) with body.
    rewrite Hdec. unfold bind at 1.
    rewrite fetcher_segments_unparseable by exact Hparse. reflexivity.
Qed.

End ParseProperties.

Section ParseScenario.
Import HLS Scenario.

(** X26 on a master playlist whose first variant has no scheme before its
    colon. *)
Lemma fetchLoop_unparseable_variant_witness :
  let broken := fun _ : list Z =>
    MASTER [ {| VariantURI := ":low.m3u8"; Bandwidth := 1280000 |};
             {| VariantURI := "http://cdn/high.m3u8";
                Bandwidth := 5120000 |} ] in
  fetchLoop broken online 6 master_url (initial 100) = None /\
  fetcher broken online 6 master_url (initial 10) = None.
Proof.
  intros broken. split.
  - apply (fetchLoop_unparseable_variant broken online master_url
             (initial 100) [1]
             {| VariantURI := ":low.m3u8"; Bandwidth := 1280000 |}
             [{| VariantURI := "http://cdn/high.m3u8";
                 Bandwidth := 5120000 |}]);
      vm_compute; reflexivity.
  - apply (fetchLoop_unparseable_variant broken online master_url
             (initial 10) [1]
             {| VariantURI := ":low.m3u8"; Bandwidth := 1280000 |}
             [{| VariantURI := "http://cdn/high.m3u8";
                 Bandwidth := 5120000 |}]);
      vm_compute; reflexivity.
Defined.

(** X27 on a media playlist whose second entry has no scheme before its
    colon. *)
Lemma fetchLoop_unparseable_segment_witness :
  let broken := fun _ : list Z =>
    MEDIA [ Some seg0;
            Some {| URI := ":seg1.ts"; Duration := two_seconds |};
            None ] in
  fetchLoop broken online 6 media_url (initial 100) = None /\
  fetcher broken online 6 media_url (initial 10) = None.
Proof.
  intros broken. split.
  - apply (fetchLoop_unparseable_segment broken online media_url
             (initial 100) [2]
             {| URI := ":seg1.ts"; Duration := two_seconds |}
             [Some seg0] [None]);
      vm_compute; reflexivity.
  - apply (fetchLoop_unparseable_segment broken online media_url
             (initial 10) [2]
             {| URI := ":seg1.ts"; Duration := two_seconds |}
             [Some seg0] [None]);
      vm_compute; reflexivity.
Defined.

End ParseScenario.

(** ** The first [main.go] against [server.go] *)

Section LegacyProperties.
Import DB Server.

(** X25.  The live route of the first [main.go] and [handleLiveStream]
    write the same playlist whenever either writes one; they part only
    on an empty store asked without [utc], where the old closure returns
    without writing and the new handler answers 404.  Neither ever
    indexes out of range. *)
Theorem live_stream_agrees (utc : string) (db : Store) :
  match handleLiveStream utc db with
  | Playlist out => Legacy.live_stream utc db = Legacy.Wrote out
  | HttpError code _ =>
      code = StatusNotFound /\ Legacy.live_stream utc db = Legacy.Silent /\
      utc = ""%string /\ database_last_5 db = []
  end.
Proof.
  unfold handleLiveStream, Legacy.live_stream.
  destruct (String.eqb utc "") eqn:Hutc; cbn [negb].
  - apply String.eqb_eq in Hutc.
    destruct (database_last_5 db) as [|item items] eqn:Hitems.
    + cbn. split; [reflexivity|]. split; [reflexivity|]. split; [exact Hutc|reflexivity].
    + replace (Z.of_nat (length (item :: items)) <=? 0) with false
        by (symmetry; apply Z.leb_gt; cbn [length]; lia).
      destruct ((item :: items) !! (length (item :: items) - 1)%nat)
        as [last|] eqn:Hlast.
      * reflexivity.
      * apply lookup_ge_None in Hlast. cbn [length] in Hlast. lia.
  - unfold handleVODRequest, Legacy.vod1. rewrite Hutc. reflexivity.
Qed.

End LegacyProperties.
